(** * A shallow embedding of the image catalog of flowall's [app.py]

    The catalog functions ([hex_to_rgb], [circle], [rectangle],
    [change_color], [change_transparency], [rectangular_pattern],
    [overlay_images]) are thin wrappers over Pillow.  The Pillow primitives
    they call ([Image.new], [convert], [crop], [paste], [alpha_composite],
    [getdata], [putdata]) are modelled in [Module PIL] after Pillow's
    Python and C sources; Python's float arithmetic is modelled with the
    kernel's IEEE-754 binary64 floats, and [int(_, 16)] after CPython's
    [PyLong_FromString].  A [string] is read as a Python string whose code
    points are the bytes of its characters (0-255).

    Rasters carry a mode ([RGB] or [RGBA]), a size and a pixel function;
    an [RGB] pixel's fourth channel is not observed. *)

From Stdlib Require Import ZArith Lia List String Ascii Bool Floats.
Import ListNotations.
Open Scope Z_scope.

(** ** Python exceptions and a result monad *)

Inductive exn := ValueError | TypeError | OverflowError | ZeroDivisionError.

Inductive result (A : Type) :=
| Ok (a : A)
| Err (e : exn).
Arguments Ok {A} a.
Arguments Err {A} e.

Definition bind {A B} (m : result A) (f : A -> result B) : result B :=
  match m with Ok a => f a | Err e => Err e end.

Notation "x <- m ;; k" := (bind m (fun x => k))
  (at level 61, m at next level, right associativity).

Fixpoint mapM {A B} (f : A -> result B) (l : list A) : result (list B) :=
  match l with
  | [] => Ok []
  | x :: l' => y <- f x;; ys <- mapM f l';; Ok (y :: ys)
  end.

(** [range n] is Python's [range(0, n)]. *)
Definition range (n : Z) : list Z := map Z.of_nat (seq 0 (Z.to_nat n)).

(** ** Python floats *)

(** [float(z)], exact for [|z| <= 2^53] (where it is used). *)
Definition float_of_int (z : Z) : PrimFloat.float :=
  if z <? 0 then PrimFloat.opp (PrimFloat.of_uint63 (Uint63.of_Z (- z)))
  else PrimFloat.of_uint63 (Uint63.of_Z z).

(** The float [(-1)^neg * q * 2^e], exact for [0 <= q <= 2^53] and
    [-1074 <= e <= 971]. *)
Definition make_float (neg : bool) (q e : Z) : PrimFloat.float :=
  let f := FloatOps.Z.ldexp (float_of_int q) e in
  if neg then PrimFloat.opp f else f.

(** Floor and remainder of [A / (B * 2^e)], with the divisor used. *)
Definition shifted_divmod (A B e : Z) : Z * Z * Z :=
  let num := if e <? 0 then Z.shiftl A (- e) else A in
  let den := if e <? 0 then B else Z.shiftl B e in
  (num / den, num mod den, den).

(** [A / (B * 2^e)] rounded to an integer, ties to even. *)
Definition round_half_even (A B e : Z) : Z :=
  let '(q, r, den) := shifted_divmod A B e in
  if (den <? 2 * r) || ((2 * r =? den) && Z.odd q) then q + 1 else q.

(** [a / b] on Python ints ([long_true_divide]): [ZeroDivisionError] when
    [b = 0]; when both operands convert exactly, the float quotient of the
    conversions; otherwise the quotient correctly rounded to 53 bits (ties
    to even, subnormal below [2^-1022], a signed zero when it underflows),
    and [OverflowError] when it rounds to [2^1024] or more. *)
Definition py_truediv (a b : Z) : result PrimFloat.float :=
  if b =? 0 then Err ZeroDivisionError
  else if (Z.abs a <=? 2 ^ 53) && (Z.abs b <=? 2 ^ 53) then
    Ok (PrimFloat.div (float_of_int a) (float_of_int b))
  else
    let neg := xorb (a <? 0) (b <? 0) in
    let A := Z.abs a in
    let B := Z.abs b in
    if A =? 0 then Ok (make_float neg 0 0)
    else
      let e0 := Z.max (Z.log2 A - Z.log2 B - 53) (-1074) in
      let '(q0, _, _) := shifted_divmod A B e0 in
      let e := if 2 ^ 53 <=? q0 then e0 + 1 else e0 in
      let q := round_half_even A B e in
      if (0 <=? e) && (2 ^ 1024 <=? q * 2 ^ e) then Err OverflowError
      else Ok (make_float neg q e).

(** Python's [int(f)] on a float: truncation toward zero; [OverflowError]
    on an infinity, [ValueError] on a NaN. *)
Definition py_int (f : PrimFloat.float) : result Z :=
  match FloatOps.Prim2SF f with
  | SpecFloat.S754_zero _ => Ok 0
  | SpecFloat.S754_finite s m e =>
      let v := if e >=? 0 then Z.pos m * 2 ^ e else Z.pos m / 2 ^ (- e) in
      Ok (if s then - v else v)
  | SpecFloat.S754_infinity _ => Err OverflowError
  | SpecFloat.S754_nan => Err ValueError
  end.

(** The expression shared verbatim by [circle], [rectangle] and
    [change_transparency]: [opacity = int(255 - 255 * (transparency / 100))]
    ([255 * q] and [255 - _] are float operations). *)
Definition opacity (transparency : Z) : result Z :=
  q <- py_truediv transparency 100;;
  py_int (PrimFloat.sub (float_of_int 255) (PrimFloat.mul (float_of_int 255) q)).

(** The formula of the spec, [round(255 * (1 - transparency/100))], over the
    rationals (no tie arises for integer percents, as 255*(100-t) is never
    50 modulo 100). *)
Definition opacity_spec (transparency : Z) : Z :=
  (255 * (100 - transparency) + 50) / 100.

(** ** [int(s, 16)] *)

(** The whitespace [int()] skips around the digits: [Py_ISSPACE] on the
    ASCII characters (9-13 and 32), and the Unicode spaces among code points
    128-255 (NEL 133 and NBSP 160), which CPython turns into [' '] first. *)
Definition is_py_space (c : ascii) : bool :=
  let n := nat_of_ascii c in
  ((9 <=? n) && (n <=? 13))%nat || (n =? 32)%nat || (n =? 133)%nat || (n =? 160)%nat.

Definition hex_digit_value (c : ascii) : option Z :=
  let n := Z.of_nat (nat_of_ascii c) in
  if (48 <=? n) && (n <=? 57) then Some (n - 48)
  else if (97 <=? n) && (n <=? 102) then Some (n - 87)
  else if (65 <=? n) && (n <=? 70) then Some (n - 55)
  else None.

Fixpoint lstrip_by (p : ascii -> bool) (s : string) : string :=
  match s with
  | String c s' => if p c then lstrip_by p s' else s
  | EmptyString => s
  end.

(** Digits with single underscores between them; [acc] is the value read so
    far and [prev_us] whether the previous character was an underscore.
    Returns the value and the unread rest. *)
Fixpoint read_digits (s : string) (acc : Z) (prev_us : bool)
  : option (Z * string) :=
  match s with
  | String "_" s' => if prev_us then None else read_digits s' acc true
  | String c s' =>
      match hex_digit_value c with
      | Some d => read_digits s' (acc * 16 + d) false
      | None => if prev_us then None else Some (acc, s)
      end
  | EmptyString => if prev_us then None else Some (acc, s)
  end.

Definition read_sign (s : string) : Z * string :=
  match s with
  | String "-" s' => (-1, s')
  | String "+" s' => (1, s')
  | _ => (1, s)
  end.

(** The base-16 prefix [0x]/[0X], followed by at most one underscore. *)
Definition skip_prefix (s : string) : string :=
  match s with
  | String "0" (String x s') =>
      if (x =? "x")%char || (x =? "X")%char then
        match s' with String "_" s'' => s'' | _ => s' end
      else s
  | _ => s
  end.

Definition py_int16 (s : string) : option Z :=
  let s1 := lstrip_by is_py_space s in
  let '(sign, s2) := read_sign s1 in
  let s3 := skip_prefix s2 in
  match s3 with
  | String "_" _ => None
  | String c _ =>
      match hex_digit_value c with
      | None => None
      | Some _ =>
          match read_digits s3 0 false with
          | Some (v, rest) =>
              match lstrip_by is_py_space rest with
              | EmptyString => Some (sign * v)
              | _ => None
              end
          | None => None
          end
      end
  | EmptyString => None
  end.

Definition int16 (s : string) : result Z :=
  match py_int16 s with Some v => Ok v | None => Err ValueError end.

(** [hex_to_rgb]: [hex_color.lstrip("#")], then [int(hex_color[i:i+2], 16)]
    for [i] in [(0, 2, 4)]; Python slices are clamped like [substring]. *)
Definition hex_to_rgb (hex_color : string) : result (Z * Z * Z) :=
  let h := lstrip_by (fun c => (c =? "#")%char) hex_color in
  r <- int16 (substring 0 2 h);;
  g <- int16 (substring 2 2 h);;
  b <- int16 (substring 4 2 h);;
  Ok (r, g, b).

(** ** Rasters *)

Inductive Mode := RGB | RGBA.

Definition mode_eqb (m1 m2 : Mode) : bool :=
  match m1, m2 with RGB, RGB | RGBA, RGBA => true | _, _ => false end.

Record pixel := mkPx { pr : Z; pg : Z; pb : Z; pa : Z }.

Definition pixel_eqb (p q : pixel) : bool :=
  (pr p =? pr q) && (pg p =? pg q) && (pb p =? pb q) && (pa p =? pa q).

Record image := mkImg {
  mode : Mode;
  width : Z;
  height : Z;
  pix : Z -> Z -> pixel
}.

Definition byte (v : Z) : Prop := 0 <= v <= 255.

Definition in_bounds (img : image) (x y : Z) : Prop :=
  0 <= x < width img /\ 0 <= y < height img.

(** A raster as Pillow holds it: a nonnegative size and 8-bit channels. *)
Definition wf_image (img : image) : Prop :=
  0 <= width img /\ 0 <= height img /\
  forall x y, in_bounds img x y ->
    byte (pr (pix img x y)) /\ byte (pg (pix img x y)) /\
    byte (pb (pix img x y)) /\ byte (pa (pix img x y)).

(** Two rasters are the same raster: same mode, size and in-bounds pixels. *)
Definition same_image (a b : image) : Prop :=
  mode a = mode b /\ width a = width b /\ height a = height b /\
  forall x y, in_bounds a x y -> pix a x y = pix b x y.

Definition same_imageb (a b : image) : bool :=
  mode_eqb (mode a) (mode b) && (width a =? width b) && (height a =? height b) &&
  forallb (fun y => forallb (fun x => pixel_eqb (pix a x y) (pix b x y))
                      (range (width a))) (range (height a)).

(** The pixel as seen in mode RGBA: an RGB pixel is opaque. *)
Definition rgba_view (m : Mode) (p : pixel) : pixel :=
  match m with RGBA => p | RGB => mkPx (pr p) (pg p) (pb p) 255 end.

(** A raster from a row-major pixel list (tests and examples). *)
Definition of_rows (m : Mode) (w h : Z) (rows : list (list pixel)) : image :=
  mkImg m w h (fun x y =>
    nth (Z.to_nat x) (nth (Z.to_nat y) rows []) (mkPx 0 0 0 0)).

(** ** Pillow *)

Module PIL.

(** [CLIP8] of Pillow's C core. *)
Definition clip8 (v : Z) : Z := if v <? 0 then 0 else if 255 <? v then 255 else v.

(** [DIV255] of Pillow's C core: [(v + 128 + ((v + 128) >> 8)) >> 8]. *)
Definition div255 (v : Z) : Z :=
  let t := v + 128 in Z.shiftr (Z.shiftr t 8 + t) 8.

(** [Image.new(mode, size, color)]: [_check_size] rejects negative sizes. *)
Definition new (m : Mode) (w h : Z) (color : pixel) : result image :=
  if (w <? 0) || (h <? 0) then Err ValueError
  else Ok (mkImg m w h (fun _ _ => color)).

(** [im.convert("RGBA")]: a new raster (a copy when already RGBA). *)
Definition convert_rgba (img : image) : image :=
  mkImg RGBA (width img) (height img)
    (fun x y => rgba_view (mode img) (pix img x y)).

(** [im.crop((l, u, r, lo))]: [ValueError] when [r < l] or [lo < u];
    otherwise a new raster of size [(r - l, lo - u)] whose pixels outside
    the source are zero ([ImagingCrop]). *)
Definition crop (img : image) (l u r lo : Z) : result image :=
  if r <? l then Err ValueError
  else if lo <? u then Err ValueError
  else Ok (mkImg (mode img) (r - l) (lo - u) (fun x y =>
    if (0 <=? l + x) && (l + x <? width img) && (0 <=? u + y) && (u + y <? height img)
    then pix img (l + x) (u + y) else mkPx 0 0 0 0)).

(** The destination pixels [(X, Y)] of [self] covered by [im] pasted at
    [(dx, dy)]; [ImagingPaste] clips the box to [self]. *)
Definition covered (im : image) (dx dy X Y : Z) : bool :=
  (0 <=? X - dx) && (X - dx <? width im) && (0 <=? Y - dy) && (Y - dy <? height im).

(** [self.paste(im, (dx, dy), mask)] with an RGBA mask ([paste_mask_RGBA]):
    every band is blended by the mask's alpha. *)
Definition blend (a o i : Z) : Z := div255 (o * (255 - a) + i * a).

Definition paste_mask (self im mask : image) (dx dy : Z) : image :=
  mkImg (mode self) (width self) (height self) (fun X Y =>
    let o := pix self X Y in
    if covered im dx dy X Y then
      let i := pix im (X - dx) (Y - dy) in
      let a := pa (pix mask (X - dx) (Y - dy)) in
      mkPx (blend a (pr o) (pr i)) (blend a (pg o) (pg i))
           (blend a (pb o) (pb i)) (blend a (pa o) (pa i))
    else o).

(** [self.paste(im, box)] without mask: a plain copy of the covered pixels. *)
Definition paste (self im : image) (dx dy : Z) : image :=
  mkImg (mode self) (width self) (height self) (fun X Y =>
    if covered im dx dy X Y then pix im (X - dx) (Y - dy) else pix self X Y).

(** [ImagingAlphaComposite] on one pixel, [PRECISION_BITS = 7]. *)
Definition shiftfordiv255 (v : Z) : Z := Z.shiftr (Z.shiftr v 8 + v) 8.

Definition composite_px (dst src : pixel) : pixel :=
  if pa src =? 0 then dst
  else
    let blend_a := pa dst * (255 - pa src) in
    let outa255 := pa src * 255 + blend_a in
    let coef1 := pa src * 255 * 255 * 128 / outa255 in
    let coef2 := 255 * 128 - coef1 in
    let ch s d := Z.shiftr (shiftfordiv255 (s * coef1 + d * coef2 + Z.shiftl 128 7)) 7 in
    mkPx (ch (pr src) (pr dst)) (ch (pg src) (pg dst)) (ch (pb src) (pb dst))
         (shiftfordiv255 (outa255 + 128)).

(** Module-level [Image.alpha_composite(im1, im2)]: both RGBA, same size. *)
Definition alpha_composite (im1 im2 : image) : result image :=
  if negb (mode_eqb (mode im1) RGBA && mode_eqb (mode im2) RGBA) then Err ValueError
  else if negb ((width im1 =? width im2) && (height im1 =? height im2)) then Err ValueError
  else Ok (mkImg RGBA (width im1) (height im1) (fun x y =>
         composite_px (pix im1 x y) (pix im2 x y))).

(** [self.alpha_composite(im, dest)] with [source = (0, 0)]: the overlay is
    [im] itself; the background is [self] when the box is the whole of
    [self], else [self.crop(box)]; the composite is pasted back at [dest]. *)
Definition alpha_composite_at (self im : image) (dx dy : Z) : result image :=
  let r := dx + width im in
  let lo := dy + height im in
  background <-
    (if (dx =? 0) && (dy =? 0) && (r =? width self) && (lo =? height self)
     then Ok self else crop self dx dy r lo);;
  res <- alpha_composite background im;;
  Ok (paste self res dx dy).

(** [im.getdata()]: the pixels in row-major order. *)
Definition getdata (img : image) : list pixel :=
  flat_map (fun y => map (fun x => pix img x y) (range (width img)))
           (range (height img)).

Definition clip_px (p : pixel) : pixel :=
  mkPx (clip8 (pr p)) (clip8 (pg p)) (clip8 (pb p)) (clip8 (pa p)).

(** The C [long long] and [int] ranges. *)
Definition c_long_long (v : Z) : bool := (- 2 ^ 63 <=? v) && (v <? 2 ^ 63).
Definition c_int (v : Z) : bool := (- 2 ^ 31 <=? v) && (v <? 2 ^ 31).

(** [getink] of a 4-tuple for an 8-bit multi-band raster:
    [PyArg_ParseTuple(color, "Lii|i", &r, &g, &b, &a)] raises
    [OverflowError] when [r] leaves the C [long long] range or [g], [b],
    [a] the C [int] range; the ink is then every channel through [CLIP8]. *)
Definition getink (p : pixel) : result pixel :=
  if c_long_long (pr p) && c_int (pg p) && c_int (pb p) && c_int (pa p)
  then Ok (clip_px p) else Err OverflowError.

(** [im.putdata(data)] on an 8-bit multi-band raster: entry [i], through
    [getink], goes to [(i mod width, i / width)].  (Its [too many data
    entries] check never fires in [app.py]: the data always come from
    [getdata] of the same raster.) *)
Definition putdata (img : image) (data : list pixel) : result image :=
  inks <- mapM getink data;;
  Ok (mkImg (mode img) (width img) (height img) (fun x y =>
    match nth_error inks (Z.to_nat (y * width img + x)) with
    | Some p => p
    | None => pix img x y
    end)).

End PIL.

(** ** The catalog of [app.py] *)

Definition SCALE_FACTOR : Z := 4.

Fixpoint foldM {A B} (f : B -> A -> result B) (l : list A) (acc : B) : result B :=
  match l with
  | [] => Ok acc
  | a :: l' => acc' <- f acc a;; foldM f l' acc'
  end.

(** [circle] and [rectangle]: the fill [color_with_opacity] handed to
    [ImageDraw]; the opacity is computed first (line 56, line 108), then
    [hex_to_rgb(color)]. *)
Definition circle_fill (color : string) (transparency : Z) : result pixel :=
  op <- opacity transparency;;
  rgb <- hex_to_rgb color;;
  let '(r, g, b) := rgb in Ok (mkPx r g b op).

Definition rectangle_fill (color : string) (transparency : Z) : result pixel :=
  op <- opacity transparency;;
  rgb <- hex_to_rgb color;;
  let '(r, g, b) := rgb in Ok (mkPx r g b op).

(** The loop body of [change_color]. *)
Definition recolor_item (color : string) (item : pixel) : result pixel :=
  if pa item =? 0 then Ok item
  else rgb <- hex_to_rgb color;;
       let '(r, g, b) := rgb in Ok (mkPx r g b (pa item)).

(** The loop body of [change_transparency]: the first three channels of
    [item], then [int(item[3] * opacity)]. *)
Definition retransparency_item (op : Z) (item : pixel) : pixel :=
  mkPx (pr item) (pg item) (pb item) (pa item * op).

Definition ensure_rgba (img : image) : image :=
  if mode_eqb (mode img) RGBA then img else PIL.convert_rgba img.

(** The raster [change_color] returns. *)
Definition change_color (img : image) (color : string) : result image :=
  let image := ensure_rgba img in
  new_data <- mapM (recolor_item color) (PIL.getdata image);;
  PIL.putdata image new_data.

(** The raster [change_transparency] returns. *)
Definition change_transparency (img : image) (transparency : Z) : result image :=
  let image := ensure_rgba img in
  op <- opacity transparency;;
  PIL.putdata image (map (retransparency_item op) (PIL.getdata image)).

(** [rectangular_pattern] *)
Definition rectangular_pattern (img : image) (count_x count_y step_x step_y : Z)
  : result image :=
  let step_x := step_x * SCALE_FACTOR in
  let step_y := step_y * SCALE_FACTOR in
  let width := width img in
  let height := height img in
  let new_width := count_x * step_x + (if step_x <? width then width - step_x else 0) in
  let new_height := count_y * step_y + (if step_y <? height then height - step_y else 0) in
  new_image <- PIL.new RGBA new_width new_height (mkPx 255 255 255 0);;
  foldM (fun canvas x =>
           foldM (fun canvas y => PIL.alpha_composite_at canvas img (x * step_x) (y * step_y))
                 (range count_y) canvas)
        (range count_x) new_image.

(** The lambda of line 153: [int(a * (transparency / 255))]. *)
Definition scale_alpha_lambda (transparency a : Z) : result Z :=
  q <- py_truediv transparency 255;;
  py_int (PrimFloat.mul (float_of_int a) q).

(** An entry of the lookup table as [_point] reads it for an 8-bit band
    ([getlist], [TYPE_INT32]): [PyLong_AsLong] raises [OverflowError]
    outside the C [long] range, the value is stored in a C [int] (two's
    complement wrap-around), then passed through [CLIP8]. *)
Definition lut_entry (v : Z) : result Z :=
  if PIL.c_long_long v then
    let w := (v + 2 ^ 31) mod 2 ^ 32 - 2 ^ 31 in Ok (PIL.clip8 w)
  else Err OverflowError.

(** [Image.eval(alpha, f)] is [alpha.point(f)]: [f] is evaluated on
    [0, ..., 255] first, then the table is converted. *)
Definition scale_lut (transparency : Z) : result (list Z) :=
  vals <- mapM (scale_alpha_lambda transparency) (range 256);;
  mapM lut_entry vals.

(** The scaled alpha of one alpha byte [a]. *)
Definition scale_alpha_value (transparency a : Z) : result Z :=
  v <- scale_alpha_lambda transparency a;; lut_entry v.

(** [overlay_image.copy()], [split()[3]], [Image.eval], then [putalpha] of
    the mapped band: each alpha byte [a] becomes entry [a] of the table. *)
Definition scale_alpha (img : image) (transparency : Z) : result image :=
  lut <- scale_lut transparency;;
  Ok (mkImg (mode img) (width img) (height img) (fun x y =>
    let p := pix img x y in
    mkPx (pr p) (pg p) (pb p) (nth (Z.to_nat (pa p)) lut 0))).

(** [overlay_images] *)
Definition overlay_images (base_image overlay_image : image)
  (offset_x offset_y transparency : Z) : result image :=
  let x := offset_x * SCALE_FACTOR in
  let y := offset_y * SCALE_FACTOR in
  let overlay_image := ensure_rgba overlay_image in
  overlay_image <-
    (if transparency <? 255 then scale_alpha overlay_image transparency
     else Ok overlay_image);;
  let base_width := width base_image in
  let base_height := height base_image in
  let overlay_width := width overlay_image in
  let overlay_height := height overlay_image in
  ov1 <- (if x <? 0 then PIL.crop overlay_image (- x) 0 overlay_width overlay_height
          else Ok overlay_image);;
  let x := if x <? 0 then 0 else x in
  ov2 <- (if y <? 0 then PIL.crop ov1 0 (- y) overlay_width overlay_height
          else Ok ov1);;
  let y := if y <? 0 then 0 else y in
  ov3 <- (if base_width <? x + overlay_width
          then PIL.crop ov2 0 0 (base_width - x) overlay_height else Ok ov2);;
  ov4 <- (if base_height <? y + overlay_height
          then PIL.crop ov3 0 0 overlay_width (base_height - y) else Ok ov3);;
  let combined_image := PIL.convert_rgba base_image in
  Ok (PIL.paste_mask combined_image ov4 ov4 x y).

(** ** Object identity: rasters as shared Python objects

    Catalog functions receive references to raster objects.  [PIL.putdata]
    writes into the object it is called on; [convert] allocates.  The store
    is followed along calls that return; after a raised exception it is not
    modelled. *)

Definition oid := nat.

Record store := mkStore { next_oid : oid; objs : oid -> option image }.

Definition load (s : store) (i : oid) : result image :=
  match objs s i with Some img => Ok img | None => Err TypeError end.

Definition alloc (s : store) (img : image) : store * oid :=
  (mkStore (S (next_oid s))
     (fun j => if Nat.eqb j (next_oid s) then Some img else objs s j),
   next_oid s).

Definition write (s : store) (i : oid) (img : image) : store :=
  mkStore (next_oid s) (fun j => if Nat.eqb j i then Some img else objs s j).

(** [change_color] on a reference: [image] is rebound to a converted copy
    only when the mode is not RGBA; [image.putdata] writes into that object,
    which is returned. *)
Definition change_color_ref (s : store) (i : oid) (color : string)
  : result (store * oid) :=
  img <- load s i;;
  let '(s1, j) := if mode_eqb (mode img) RGBA then (s, i)
                  else alloc s (PIL.convert_rgba img) in
  image <- load s1 j;;
  new_data <- mapM (recolor_item color) (PIL.getdata image);;
  image' <- PIL.putdata image new_data;;
  Ok (write s1 j image', j).

Definition change_transparency_ref (s : store) (i : oid) (transparency : Z)
  : result (store * oid) :=
  img <- load s i;;
  let '(s1, j) := if mode_eqb (mode img) RGBA then (s, i)
                  else alloc s (PIL.convert_rgba img) in
  image <- load s1 j;;
  op <- opacity transparency;;
  image' <- PIL.putdata image (map (retransparency_item op) (PIL.getdata image));;
  Ok (write s1 j image', j).

(** ** Hex colors: helpers for the statements *)

Definition is_hex_digit (c : ascii) : bool :=
  match hex_digit_value c with Some _ => true | None => false end.

Definition hexval (c : ascii) : Z :=
  match hex_digit_value c with Some d => d | None => 0 end.

Definition pairval (a b : ascii) : Z := 16 * hexval a + hexval b.

Definition lower (c : ascii) : ascii :=
  let n := nat_of_ascii c in
  if ((65 <=? n) && (n <=? 90))%nat then ascii_of_nat (n + 32) else c.

Fixpoint lower_string (s : string) : string :=
  match s with String c s' => String (lower c) (lower_string s') | EmptyString => s end.

(** The inverse encoding: two lowercase hex digits per channel. *)
Definition hexchar (d : Z) : ascii := nth (Z.to_nat d) (list_ascii_of_string "0123456789abcdef") "0"%char.

Definition to_hex2 (v : Z) : string :=
  String (hexchar (v / 16)) (String (hexchar (v mod 16)) EmptyString).

Definition rgb_to_hex (rgb : Z * Z * Z) : string :=
  let '(r, g, b) := rgb in (to_hex2 r ++ to_hex2 g ++ to_hex2 b)%string.

Definition hexchars : list ascii := list_ascii_of_string "0123456789abcdefABCDEF".

Definition opt_Z_eqb (o1 o2 : option Z) : bool :=
  match o1, o2 with Some a, Some b => a =? b | None, None => true | _, _ => false end.

(** ** The rest of the catalog *)

(** [ImageDraw.Draw(im).rectangle(xy, fill=ink)] on an RGBA raster, drawn
    without blending: [_draw_rectangle] rejects [x1 < x0] and [y1 < y0]
    ([ValueError]); the fill loop of [ImagingDrawRectangle] sets the pixels
    [x0 <= X <= x1], [y0 <= Y <= y1], clipped to the raster ([hline]), to
    the ink.  The fill is turned into the ink by [getink] ([_getink],
    [draw_ink]) before the box is checked. *)
Definition draw_rectangle (img : image) (x0 y0 x1 y1 : Z) (fill : pixel) : result image :=
  ink <- PIL.getink fill;;
  if x1 <? x0 then Err ValueError
  else if y1 <? y0 then Err ValueError
  else Ok (mkImg (mode img) (width img) (height img) (fun X Y =>
         if (x0 <=? X) && (X <=? x1) && (y0 <=? Y) && (Y <=? y1)
         then ink else pix img X Y)).

(** [rectangle]: [Image.new], then the opacity and [hex_to_rgb] of the fill
    ([rectangle_fill]), then [draw.rectangle((0, 0, width, height), ...)]. *)
Definition rectangle (width height : Z) (color : string) (transparency : Z) : result image :=
  let width := width * SCALE_FACTOR in
  let height := height * SCALE_FACTOR in
  image <- PIL.new RGBA width height (mkPx 255 255 255 0);;
  color_with_opacity <- rectangle_fill color transparency;;
  draw_rectangle image 0 0 width height color_with_opacity.

(** [Image.transpose(ROTATE_90)] ([ImagingRotate90]): the output is
    [height x width]; output pixel [(X, Y)] is input pixel [(W - 1 - Y, X)]. *)
Definition rotate_90 (img : image) : image :=
  mkImg (mode img) (height img) (width img) (fun X Y => pix img (width img - 1 - Y) X).

(** [Image.transpose(ROTATE_180)] ([ImagingRotate180]). *)
Definition rotate_180 (img : image) : image :=
  mkImg (mode img) (width img) (height img)
    (fun X Y => pix img (width img - 1 - X) (height img - 1 - Y)).

(** [Image.transpose(ROTATE_270)] ([ImagingRotate270]): output pixel
    [(X, Y)] is input pixel [(Y, H - 1 - X)]. *)
Definition rotate_270 (img : image) : image :=
  mkImg (mode img) (height img) (width img) (fun X Y => pix img Y (height img - 1 - X)).

(** [rotate]: [image.rotate(angle, expand=True)].  Pillow first reduces
    [angle % 360.0], then takes its fast paths: [copy()] for 0, [transpose]
    for 180, 90 and 270.  Any other angle goes through the general affine
    resampling, which is not modelled ([None]); so do angles beyond [2^53],
    whose conversion to a float rounds. *)
Definition rotate (img : image) (angle : Z) : option image :=
  if Z.abs angle <=? 2 ^ 53 then
    let a := angle mod 360 in
    if a =? 0 then Some img
    else if a =? 180 then Some (rotate_180 img)
    else if a =? 90 then Some (rotate_90 img)
    else if a =? 270 then Some (rotate_270 img)
    else None
  else None.

Section Canvas.

(** [ImageColor.getcolor(color, "RGBA")]: Pillow's resolution of a colour
    string, which raises [ValueError] on an unknown colour. *)
Variable getcolor : string -> result pixel.

(** [Image.new(mode, size, color)] with a colour string: [_check_size] runs
    before the colour is resolved. *)
Definition new_str (m : Mode) (w h : Z) (color : string) : result image :=
  if (w <? 0) || (h <? 0) then Err ValueError
  else c <- getcolor color;; Ok (mkImg m w h (fun _ _ => c)).

(** [create_canvas] *)
Definition create_canvas (width height : Z) (background_color : string) : result image :=
  new_str RGBA (width * SCALE_FACTOR) (height * SCALE_FACTOR) background_color.

End Canvas.

(** Lines 146-154 of [overlay_images]: the overlay in RGBA with its alpha
    scaled, before any clipping. *)
Definition overlay_source (overlay_image : image) (transparency : Z) : result image :=
  let overlay_image := ensure_rgba overlay_image in
  if transparency <? 255 then scale_alpha overlay_image transparency else Ok overlay_image.

(** Lines 157-177 of [overlay_images]: the clipping crops and the paste, at
    the scaled position [(x, y)]. *)
Definition overlay_clip (base_image overlay_image : image) (x y : Z) : result image :=
  let base_width := width base_image in
  let base_height := height base_image in
  let overlay_width := width overlay_image in
  let overlay_height := height overlay_image in
  ov1 <- (if x <? 0 then PIL.crop overlay_image (- x) 0 overlay_width overlay_height
          else Ok overlay_image);;
  let x := if x <? 0 then 0 else x in
  ov2 <- (if y <? 0 then PIL.crop ov1 0 (- y) overlay_width overlay_height
          else Ok ov1);;
  let y := if y <? 0 then 0 else y in
  ov3 <- (if base_width <? x + overlay_width
          then PIL.crop ov2 0 0 (base_width - x) overlay_height else Ok ov2);;
  ov4 <- (if base_height <? y + overlay_height
          then PIL.crop ov3 0 0 overlay_width (base_height - y) else Ok ov3);;
  let combined_image := PIL.convert_rgba base_image in
  Ok (PIL.paste_mask combined_image ov4 ov4 x y).

(** ** The Dash callbacks *)

(** An output of a callback: [dash.no_update] or a new value. *)
Inductive update (A : Type) :=
| NoUpdate
| Update (v : A).
Arguments NoUpdate {A}.
Arguments Update {A} v.

(** A component property after a callback: [no_update] keeps the old value. *)
Definition apply_update {A} (u : update A) (old : A) : A :=
  match u with NoUpdate => old | Update v => v end.

(** Python truthiness of the editor's nodes: [None] and the empty collection
    are false. *)
Definition truthy {A} (v : option (list A)) : bool :=
  match v with Some (_ :: _) => true | _ => false end.

Definition is_none {A} (v : option A) : bool :=
  match v with None => true | Some _ => false end.

(** [save_image] *)
Definition save_image {A} (n_clicks : option Z) (nodes : option (list A))
  : update (option (list A)) :=
  if is_none n_clicks || negb (truthy nodes) then NoUpdate else Update nodes.

(** [restore_image]; [triggered] is [callback_context.triggered_id], [None]
    when [callback_context.triggered] is empty (the two click counts are not
    read by the body).  [{}] is the empty collection. *)
Definition restore_image {A} (triggered : option string) (store_data nodes : option (list A))
  : update (option (list A)) * update string :=
  match triggered with
  | None => (Update nodes, Update "server"%string)
  | Some control =>
      if String.eqb control "restore-button"%string then
        if truthy store_data then (Update store_data, Update "server"%string)
        else (NoUpdate, NoUpdate)
      else if String.eqb control "clear-button"%string then (Update (Some []), Update "server"%string)
      else (Update nodes, Update "server"%string)
  end.

(** ** Proofs *)

Lemma in_range (t n : Z) : 0 <= t < n -> In t (range n).
Proof.
  intros H. unfold range. apply in_map_iff. exists (Z.to_nat t). split.
  - apply Z2Nat.id; lia.
  - apply in_seq. lia.
Qed.

Lemma forallb_range (f : Z -> bool) (n t : Z) :
  forallb f (range n) = true -> 0 <= t < n -> f t = true.
Proof.
  intros Hf Ht. rewrite forallb_forall in Hf. apply Hf, in_range, Ht.
Qed.

(** A result equal to [Ok v], as a test. *)
Definition ok_eqb (r : result Z) (v : Z) : bool :=
  match r with Ok a => a =? v | Err _ => false end.

Lemma ok_eqb_ok (r : result Z) (v : Z) : ok_eqb r v = true -> r = Ok v.
Proof. destruct r; simpl; [intros H; apply Z.eqb_eq in H; subst; reflexivity|discriminate]. Qed.

Lemma opacity_table :
  forallb (fun t => ok_eqb (opacity t) (255 * (100 - t) / 100)) (range 101) = true.
Proof. vm_compute. reflexivity. Qed.

Lemma opacity_value (t : Z) : 0 <= t <= 100 -> opacity t = Ok (255 * (100 - t) / 100).
Proof. intros Ht. apply ok_eqb_ok. apply (forallb_range _ 101 t opacity_table). lia. Qed.

(** C2 (amended): for a percent [t] in [0, 100] the opacity byte is the
    truncation [int(255 - 255 * (t / 100))], i.e. the floor of
    [255 * (100 - t) / 100], and it is the alpha of the fill of [circle] and
    [rectangle]. *)
Theorem opacity_is_floor (t : Z) (Ht : 0 <= t <= 100) :
  opacity t = Ok (255 * (100 - t) / 100) /\
  forall color r g b, hex_to_rgb color = Ok (r, g, b) ->
    circle_fill color t = Ok (mkPx r g b (255 * (100 - t) / 100)) /\
    rectangle_fill color t = Ok (mkPx r g b (255 * (100 - t) / 100)).
Proof.
  pose proof (opacity_value t Ht) as Hop.
  split; [exact Hop|].
  intros color r g b Hc. unfold circle_fill, rectangle_fill.
  rewrite Hop. cbn [bind]. rewrite Hc. split; reflexivity.
Qed.

Lemma opacity_is_floor_witness :
  0 <= 2 <= 100 /\ opacity 2 = Ok 249.
Proof.
  split; [lia|]. destruct (opacity_is_floor 2) as [H _]; [lia|]. rewrite H. reflexivity.
Defined.

(** C2 (counterexample): at [t = 2] the code's byte is [int(249.9) = 249]
    while [round(255 * (1 - 2/100)) = 250]. *)
Lemma opacity_not_rounded :
  opacity 2 = Ok 249 /\ opacity_spec 2 = 250 /\
  ~ (forall t, 0 <= t <= 100 -> opacity t = Ok (opacity_spec t)).
Proof.
  assert (H2 : opacity 2 = Ok 249) by (vm_compute; reflexivity).
  split; [exact H2|]. split; [reflexivity|].
  intros H. specialize (H 2 ltac:(lia)). rewrite H2 in H. discriminate.
Qed.

Lemma is_hex_digit_in (c : ascii) : is_hex_digit c = true -> In c hexchars.
Proof.
  destruct c as [[] [] [] [] [] [] [] []]; vm_compute;
    first [discriminate | intros _; tauto].
Qed.

Lemma hex_pair_table :
  forallb (fun a => forallb (fun b =>
      opt_Z_eqb (py_int16 (String a (String b EmptyString))) (Some (pairval a b)) &&
      String.eqb (to_hex2 (pairval a b)) (String (lower a) (String (lower b) EmptyString)))
    hexchars) hexchars = true.
Proof. vm_compute. reflexivity. Qed.

Lemma hex_pair (a b : ascii) :
  is_hex_digit a = true -> is_hex_digit b = true ->
  py_int16 (String a (String b EmptyString)) = Some (pairval a b) /\
  to_hex2 (pairval a b) = String (lower a) (String (lower b) EmptyString).
Proof.
  intros Ha Hb. apply is_hex_digit_in in Ha, Hb.
  pose proof hex_pair_table as T. rewrite forallb_forall in T.
  specialize (T a Ha). rewrite forallb_forall in T. specialize (T b Hb).
  apply andb_prop in T as [T1 T2].
  apply String.eqb_eq in T2. split; [|exact T2].
  destruct (py_int16 _); simpl in T1; [|discriminate].
  apply Z.eqb_eq in T1. subst. reflexivity.
Qed.

Lemma is_hex_digit_not_hash (c : ascii) :
  is_hex_digit c = true -> (c =? "#")%char = false.
Proof.
  intros H. apply is_hex_digit_in in H.
  repeat (destruct H as [<- | H]; [reflexivity|]). destruct H.
Qed.

Lemma hex_to_rgb_hash (s : string) :
  hex_to_rgb (String "#" s) = hex_to_rgb s.
Proof. reflexivity. Qed.

(** Six hex digits followed by anything: the three pairs are read, the rest
    is never looked at. *)
Lemma hex_to_rgb_six (a b c d e f : ascii) (rest : string) :
  is_hex_digit a = true -> is_hex_digit b = true -> is_hex_digit c = true ->
  is_hex_digit d = true -> is_hex_digit e = true -> is_hex_digit f = true ->
  hex_to_rgb (String a (String b (String c (String d (String e (String f rest))))))
  = Ok (pairval a b, pairval c d, pairval e f).
Proof.
  intros Ha Hb Hc Hd He Hf. unfold hex_to_rgb.
  assert (Hr : substring 0 0 rest = EmptyString) by (destruct rest; reflexivity).
  simpl. rewrite (is_hex_digit_not_hash a Ha). simpl. rewrite Hr.
  unfold int16.
  rewrite (proj1 (hex_pair a b Ha Hb)), (proj1 (hex_pair c d Hc Hd)),
          (proj1 (hex_pair e f He Hf)).
  reflexivity.
Qed.

Lemma hexval_range (c : ascii) : is_hex_digit c = true -> 0 <= hexval c <= 15.
Proof.
  intros H. apply is_hex_digit_in in H.
  repeat (destruct H as [<- | H]; [vm_compute; split; discriminate|]). destruct H.
Qed.

Lemma pairval_byte (a b : ascii) :
  is_hex_digit a = true -> is_hex_digit b = true -> byte (pairval a b).
Proof.
  intros Ha Hb. apply hexval_range in Ha, Hb. unfold byte, pairval. lia.
Qed.

(** C6 (counterexample): [hex_to_rgb] does not reject a string of seven hex
    digits; it reads the first six and returns [(255, 255, 255)]. *)
Lemma hex_to_rgb_accepts_seven_digits :
  hex_to_rgb "FFFFFFF" = Ok (255, 255, 255).
Proof. reflexivity. Qed.

(** C6 (amended): for six hex digits, optionally preceded by ['#'], and
    followed by any text, [hex_to_rgb] returns the triple of the three digit
    pairs, each in [0, 255]; the text after the sixth digit is not looked at
    (with [rest = ""] this is the well-formed case).  [hex_to_rgb] raises
    [ValueError] exactly when one of the three two-character slices is
    refused by [int(_, 16)], and it raises nothing else. *)
Theorem hex_to_rgb_six_digits :
  (forall (a b c d e f : ascii) (rest : string),
     is_hex_digit a = true -> is_hex_digit b = true ->
     is_hex_digit c = true -> is_hex_digit d = true ->
     is_hex_digit e = true -> is_hex_digit f = true ->
     let s := String a (String b (String c (String d (String e (String f rest))))) in
     hex_to_rgb s = Ok (pairval a b, pairval c d, pairval e f) /\
     hex_to_rgb (String "#" s) = Ok (pairval a b, pairval c d, pairval e f) /\
     byte (pairval a b) /\ byte (pairval c d) /\ byte (pairval e f)) /\
  (forall s : string,
     hex_to_rgb s = Err ValueError <->
     exists i, In i [0; 2; 4]%nat /\
       py_int16 (substring i 2 (lstrip_by (fun c => (c =? "#")%char) s)) = None) /\
  (forall (s : string) (err : exn), hex_to_rgb s = Err err -> err = ValueError).
Proof.
  split; [|split].
  - intros a b c d e f rest Ha Hb Hc Hd He Hf s. rewrite hex_to_rgb_hash. unfold s.
    rewrite hex_to_rgb_six by assumption.
    repeat split; try reflexivity; apply pairval_byte; assumption.
  - intros s. unfold hex_to_rgb, int16. set (h := lstrip_by _ s).
    destruct (py_int16 (substring 0 2 h)) eqn:E0;
      destruct (py_int16 (substring 2 2 h)) eqn:E2;
      destruct (py_int16 (substring 4 2 h)) eqn:E4; cbn [bind];
      split; intros H; try discriminate H;
      try (match type of H with
           | ex _ => destruct H as [i [Hi Hn]]; simpl in Hi;
                     destruct Hi as [<- | [<- | [<- | []]]]; congruence
           end);
      try reflexivity;
      first [ exists 0%nat; split; [simpl; tauto | exact E0]
            | exists 2%nat; split; [simpl; tauto | exact E2]
            | exists 4%nat; split; [simpl; tauto | exact E4] ].
  - intros s err. unfold hex_to_rgb, int16.
    destruct (py_int16 (substring 0 2 _)); cbn [bind]; [|congruence].
    destruct (py_int16 (substring 2 2 _)); cbn [bind]; [|congruence].
    destruct (py_int16 (substring 4 2 _)); cbn [bind]; congruence.
Qed.

Lemma hex_to_rgb_six_digits_witness :
  hex_to_rgb "#1a2B3c" = Ok (26, 43, 60) /\ hex_to_rgb "1a2B3cZZ" = Ok (26, 43, 60) /\
  hex_to_rgb "#1a2BZc" = Err ValueError.
Proof.
  destruct hex_to_rgb_six_digits as [Six [Err1 _]].
  destruct (Six "1"%char "a"%char "2"%char "B"%char "3"%char "c"%char "ZZ"%string)
    as [H1 [_ _]]; try reflexivity.
  destruct (Six "1"%char "a"%char "2"%char "B"%char "3"%char "c"%char EmptyString)
    as [_ [H2 _]]; try reflexivity.
  split; [exact H2|]. split; [exact H1|].
  apply Err1. exists 4%nat. split; [simpl; tauto|]. vm_compute. reflexivity.
Defined.

Lemma to_hex2_table :
  forallb (fun v =>
    is_hex_digit (hexchar (v / 16)) && is_hex_digit (hexchar (v mod 16)) &&
    (pairval (hexchar (v / 16)) (hexchar (v mod 16)) =? v)) (range 256) = true.
Proof. vm_compute. reflexivity. Qed.

Lemma to_hex2_digits (v : Z) : byte v ->
  is_hex_digit (hexchar (v / 16)) = true /\ is_hex_digit (hexchar (v mod 16)) = true /\
  pairval (hexchar (v / 16)) (hexchar (v mod 16)) = v.
Proof.
  intros Hv. pose proof (forallb_range _ 256 v to_hex2_table) as T.
  unfold byte in Hv. specialize (T ltac:(lia)).
  apply andb_prop in T as [T T3]. apply andb_prop in T as [T1 T2].
  apply Z.eqb_eq in T3. auto.
Qed.

(** C7: on six-hex-digit strings [hex_to_rgb] is a bijection onto the
    triples of bytes: re-encoding the triple (two lowercase hex digits per
    channel) gives back the input up to letter case, with or without the
    leading ['#'], and every triple of bytes is reached. *)
Theorem hex_to_rgb_bijection :
  (forall a b c d e f : ascii,
     forallb is_hex_digit [a; b; c; d; e; f] = true ->
     let s := String a (String b (String c (String d (String e (String f EmptyString))))) in
     exists rgb, hex_to_rgb s = Ok rgb /\ hex_to_rgb (String "#" s) = Ok rgb /\
                 rgb_to_hex rgb = lower_string s) /\
  (forall r g b : Z, byte r -> byte g -> byte b ->
     exists s, String.length s = 6%nat /\ forallb is_hex_digit (list_ascii_of_string s) = true /\
               hex_to_rgb s = Ok (r, g, b)).
Proof.
  split.
  - intros a b c d e f H s. simpl in H.
    repeat match type of H with
           | _ && _ = true => let H1 := fresh "H" in apply andb_prop in H as [H1 H]
           end.
    exists (pairval a b, pairval c d, pairval e f).
    rewrite hex_to_rgb_hash. unfold s. rewrite hex_to_rgb_six by assumption.
    split; [reflexivity|split; [reflexivity|]].
    unfold rgb_to_hex. rewrite (proj2 (hex_pair a b H0 H1)), (proj2 (hex_pair c d H2 H3)),
                   (proj2 (hex_pair e f H4 H5)).
    reflexivity.
  - intros r g b Hr Hg Hb.
    destruct (to_hex2_digits r Hr) as [R1 [R2 R3]].
    destruct (to_hex2_digits g Hg) as [G1 [G2 G3]].
    destruct (to_hex2_digits b Hb) as [B1 [B2 B3]].
    exists (rgb_to_hex (r, g, b)). unfold rgb_to_hex, to_hex2.
    cbn [String.append String.length list_ascii_of_string forallb].
    rewrite R1, R2, G1, G2, B1, B2. split; [reflexivity|split; [reflexivity|]].
    rewrite hex_to_rgb_six by assumption. rewrite R3, G3, B3. reflexivity.
Qed.

Lemma hex_to_rgb_bijection_witness :
  rgb_to_hex (171, 205, 239) = lower_string "ABcdEF" /\
  (exists s, hex_to_rgb s = Ok (0, 128, 255)).
Proof.
  destruct hex_to_rgb_bijection as [H1 H2]. split.
  - destruct (H1 "A"%char "B"%char "c"%char "d"%char "E"%char "F"%char) as [rgb [E1 [_ E3]]]; [reflexivity|].
    vm_compute in E1. injection E1 as <-. exact E3.
  - destruct (H2 0 128 255) as [s [_ [_ E]]]; try (unfold byte; lia).
    exists s. exact E.
Defined.

(** ** Pixel data: [getdata] and [putdata] *)

Lemma length_range (n : Z) : List.length (range n) = Z.to_nat n.
Proof. unfold range. rewrite length_map, length_seq. reflexivity. Qed.

Lemma nth_error_range (n : Z) (k : nat) :
  (k < Z.to_nat n)%nat -> nth_error (range n) k = Some (Z.of_nat k).
Proof.
  intros Hk. unfold range. rewrite nth_error_map, nth_error_seq.
  apply Nat.ltb_lt in Hk. rewrite Hk. reflexivity.
Qed.

Lemma nth_error_flat_map_rows {A B} (f : A -> list B) (n : nat) :
  (forall a, List.length (f a) = n) ->
  forall (l : list A) (k i : nat) (a : A),
    nth_error l k = Some a -> (i < n)%nat ->
    nth_error (flat_map f l) (k * n + i) = nth_error (f a) i.
Proof.
  intros Hlen l. induction l as [|a0 l IH]; intros k i a Hk Hi.
  - destruct k; discriminate.
  - simpl. destruct k as [|k]; simpl in Hk.
    + injection Hk as ->. rewrite nth_error_app1 by (rewrite Hlen; lia). reflexivity.
    + rewrite nth_error_app2 by (rewrite Hlen; lia). rewrite Hlen.
      replace (S k * n + i - n)%nat with (k * n + i)%nat by lia.
      apply IH; assumption.
Qed.

Lemma nth_error_getdata (img : image) (x y : Z) :
  in_bounds img x y ->
  nth_error (PIL.getdata img) (Z.to_nat (y * width img + x)) = Some (pix img x y).
Proof.
  intros [Hx Hy]. unfold PIL.getdata.
  replace (Z.to_nat (y * width img + x))
    with (Z.to_nat y * Z.to_nat (width img) + Z.to_nat x)%nat by lia.
  rewrite (nth_error_flat_map_rows _ (Z.to_nat (width img))
             (fun a => eq_trans (length_map _ _) (length_range _))
             (range (height img)) (Z.to_nat y) (Z.to_nat x) y).
  - rewrite nth_error_map, nth_error_range by lia. simpl. rewrite Z2Nat.id by lia.
    reflexivity.
  - rewrite nth_error_range by lia. rewrite Z2Nat.id by lia. reflexivity.
  - lia.
Qed.

Lemma in_range_inv (t n : Z) : In t (range n) -> 0 <= t < n.
Proof.
  unfold range. intros H. apply in_map_iff in H as [k [<- Hk]]. apply in_seq in Hk. lia.
Qed.

Lemma in_getdata (img : image) (p : pixel) :
  In p (PIL.getdata img) -> exists x y, in_bounds img x y /\ p = pix img x y.
Proof.
  unfold PIL.getdata. intros H. apply in_flat_map in H as [y [Hy H]].
  apply in_map_iff in H as [x [<- Hx]].
  apply in_range_inv in Hx, Hy. exists x, y. split; [split; assumption|reflexivity].
Qed.

(** The channels [getink] accepts. *)
Definition ink_ok (p : pixel) : bool :=
  PIL.c_long_long (pr p) && PIL.c_int (pg p) && PIL.c_int (pb p) && PIL.c_int (pa p).

Lemma ink_ok_small (p : pixel) :
  Z.abs (pr p) <= 65535 -> Z.abs (pg p) <= 65535 -> Z.abs (pb p) <= 65535 ->
  Z.abs (pa p) <= 65535 -> ink_ok p = true.
Proof.
  intros. unfold ink_ok, PIL.c_long_long, PIL.c_int.
  rewrite !andb_true_iff, !Z.leb_le, !Z.ltb_lt. lia.
Qed.

Lemma getink_ok (p q : pixel) : PIL.getink p = Ok q -> q = PIL.clip_px p.
Proof.
  change (PIL.getink p) with (if ink_ok p then Ok (PIL.clip_px p) else Err OverflowError).
  destruct (ink_ok p); [intros H; injection H as <-; reflexivity|discriminate].
Qed.

Lemma mapM_getink_ok (l inks : list pixel) :
  mapM PIL.getink l = Ok inks -> inks = map PIL.clip_px l.
Proof.
  revert inks. induction l as [|p l IH]; intros inks E; simpl in E.
  - injection E as <-. reflexivity.
  - destruct (PIL.getink p) as [q|e] eqn:Eq; cbn [bind] in E; [|discriminate].
    destruct (mapM PIL.getink l) as [qs|e] eqn:Eqs; cbn [bind] in E; [|discriminate].
    injection E as <-. rewrite (getink_ok p q Eq), (IH qs eq_refl). reflexivity.
Qed.

Lemma mapM_getink_all (l : list pixel) :
  (forall p, In p l -> ink_ok p = true) -> mapM PIL.getink l = Ok (map PIL.clip_px l).
Proof.
  induction l as [|p l IH]; intros H; [reflexivity|]. simpl.
  change (PIL.getink p) with (if ink_ok p then Ok (PIL.clip_px p) else Err OverflowError).
  rewrite (H p (or_introl eq_refl)). cbn [bind].
  rewrite IH by (intros q Hq; apply H; right; exact Hq). reflexivity.
Qed.

(** [putdata (getdata img)] transformed pixelwise by [g], when it returns. *)
Lemma putdata_map (img : image) (g : pixel -> pixel) (out : image) :
  PIL.putdata img (map g (PIL.getdata img)) = Ok out ->
  mode out = mode img /\ width out = width img /\ height out = height img /\
  forall x y, in_bounds img x y -> pix out x y = PIL.clip_px (g (pix img x y)).
Proof.
  unfold PIL.putdata.
  destruct (mapM PIL.getink _) as [inks|e] eqn:E; cbn [bind]; [|discriminate].
  intros H. injection H as <-. apply mapM_getink_ok in E. subst inks.
  simpl. split; [reflexivity|]. split; [reflexivity|]. split; [reflexivity|].
  intros x y Hb. rewrite !nth_error_map, nth_error_getdata by assumption. reflexivity.
Qed.

(** It returns when [getink] accepts every new pixel. *)
Lemma putdata_map_ok (img : image) (g : pixel -> pixel) :
  (forall x y, in_bounds img x y -> ink_ok (g (pix img x y)) = true) ->
  exists out, PIL.putdata img (map g (PIL.getdata img)) = Ok out.
Proof.
  intros H. unfold PIL.putdata. rewrite mapM_getink_all.
  - eexists. reflexivity.
  - intros p Hp. apply in_map_iff in Hp as [q [<- Hq]].
    apply in_getdata in Hq as [x [y [Hb ->]]]. apply H, Hb.
Qed.

Lemma mapM_pure {A B} (f : A -> result B) (g : A -> B) (l : list A) :
  (forall a, f a = Ok (g a)) -> mapM f l = Ok (map g l).
Proof.
  intros Hf. induction l as [|a l IH]; simpl; [reflexivity|].
  rewrite Hf, IH. reflexivity.
Qed.

Lemma ensure_rgba_pix (img : image) (x y : Z) :
  pix (ensure_rgba img) x y = rgba_view (mode img) (pix img x y).
Proof. unfold ensure_rgba. destruct img as [[] w h p]; reflexivity. Qed.

Lemma ensure_rgba_size (img : image) :
  width (ensure_rgba img) = width img /\ height (ensure_rgba img) = height img.
Proof. unfold ensure_rgba. destruct img as [[] w h p]; split; reflexivity. Qed.

Lemma ensure_rgba_mode (img : image) : mode (ensure_rgba img) = RGBA.
Proof. unfold ensure_rgba. destruct img as [[] w h p]; reflexivity. Qed.

Lemma ensure_rgba_in (img : image) (x y : Z) :
  in_bounds (ensure_rgba img) x y -> in_bounds img x y.
Proof.
  destruct (ensure_rgba_size img) as [Hw Hh]. unfold in_bounds. rewrite Hw, Hh. auto.
Qed.

(** Every in-bounds pixel, read as RGBA, has 8-bit channels. *)
Definition view_bytes (img : image) : Prop :=
  forall x y, in_bounds img x y ->
    let p := rgba_view (mode img) (pix img x y) in
    byte (pr p) /\ byte (pg p) /\ byte (pb p) /\ byte (pa p).

Lemma rgba_view_bytes (img : image) (x y : Z) :
  wf_image img -> in_bounds img x y ->
  let p := rgba_view (mode img) (pix img x y) in
  byte (pr p) /\ byte (pg p) /\ byte (pb p) /\ byte (pa p).
Proof.
  intros [_ [_ Hpx]] Hb. specialize (Hpx x y Hb).
  destruct (mode img); simpl; [|exact Hpx].
  destruct Hpx as [H1 [H2 [H3 _]]]. unfold byte in *. repeat split; lia.
Qed.

Lemma wf_view_bytes (img : image) : wf_image img -> view_bytes img.
Proof. intros Hwf x y Hb. apply rgba_view_bytes; assumption. Qed.

Lemma clip8_range (v : Z) : byte (PIL.clip8 v).
Proof.
  unfold byte, PIL.clip8. destruct (Z.ltb_spec v 0); [lia|].
  destruct (Z.ltb_spec 255 v); lia.
Qed.

(** A returned RGBA raster whose pixels went through [CLIP8]. *)
Lemma clip_view_bytes (img out : image) (f : Z -> Z -> pixel) :
  mode out = RGBA -> width out = width img -> height out = height img ->
  (forall x y, in_bounds img x y -> pix out x y = PIL.clip_px (f x y)) ->
  view_bytes out.
Proof.
  intros M W H P x y Hb. rewrite M. simpl.
  rewrite P by (unfold in_bounds in *; rewrite <- W, <- H; exact Hb).
  unfold PIL.clip_px; simpl. repeat split; apply clip8_range.
Qed.

(** [int(s, 16)] of at most two characters lies in [-255, 255]. *)
Definition all_chars : list ascii := map ascii_of_nat (seq 0 256).

Definition small_int16 (s : string) : bool :=
  match py_int16 s with Some v => Z.abs v <=? 255 | None => true end.

Lemma int16_small_table :
  small_int16 EmptyString &&
  forallb (fun a => small_int16 (String a EmptyString) &&
    forallb (fun b => small_int16 (String a (String b EmptyString))) all_chars) all_chars = true.
Proof. vm_compute. reflexivity. Qed.

Lemma all_chars_in (c : ascii) : In c all_chars.
Proof.
  unfold all_chars. rewrite <- (ascii_nat_embedding c) at 1.
  apply in_map, in_seq. pose proof (nat_ascii_bounded c). lia.
Qed.

Lemma length_substring (n m : nat) (s : string) :
  (String.length (substring n m s) <= m)%nat.
Proof.
  revert n m. induction s as [|c s IH]; intros n m; destruct n, m; simpl; try lia.
  - specialize (IH 0%nat m). lia.
  - apply IH.
  - apply IH.
Qed.

Lemma int16_small (s : string) (v : Z) :
  (String.length s <= 2)%nat -> int16 s = Ok v -> Z.abs v <= 255.
Proof.
  unfold int16. intros Hl E.
  destruct (py_int16 s) as [w|] eqn:Ew; [injection E as <-|discriminate].
  pose proof int16_small_table as T. apply andb_prop in T as [T0 T].
  rewrite forallb_forall in T.
  destruct s as [|a [|b [|c s]]]; simpl in Hl; try lia.
  - unfold small_int16 in T0. rewrite Ew in T0. apply Z.leb_le, T0.
  - specialize (T a (all_chars_in a)). apply andb_prop in T as [T _].
    unfold small_int16 in T. rewrite Ew in T. apply Z.leb_le, T.
  - specialize (T a (all_chars_in a)). apply andb_prop in T as [_ T].
    rewrite forallb_forall in T. specialize (T b (all_chars_in b)).
    unfold small_int16 in T. rewrite Ew in T. apply Z.leb_le, T.
Qed.

Lemma hex_to_rgb_small (color : string) (r g b : Z) :
  hex_to_rgb color = Ok (r, g, b) -> Z.abs r <= 255 /\ Z.abs g <= 255 /\ Z.abs b <= 255.
Proof.
  unfold hex_to_rgb. set (h := lstrip_by _ color).
  destruct (int16 (substring 0 2 h)) as [r'|] eqn:E1; cbn [bind]; [|discriminate].
  destruct (int16 (substring 2 2 h)) as [g'|] eqn:E2; cbn [bind]; [|discriminate].
  destruct (int16 (substring 4 2 h)) as [b'|] eqn:E3; cbn [bind]; [|discriminate].
  intros E. injection E as <- <- <-.
  split; [|split]; eapply int16_small; eauto; apply length_substring.
Qed.

(** What [change_color] returns, pixel by pixel. *)
Definition recolor_px (r g b : Z) (item : pixel) : pixel :=
  if pa item =? 0 then item else mkPx r g b (pa item).

Lemma change_color_ok (img : image) (color : string) (r g b : Z) (out : image) :
  hex_to_rgb color = Ok (r, g, b) -> change_color img color = Ok out ->
  mode out = RGBA /\ width out = width img /\ height out = height img /\
  forall x y, in_bounds img x y ->
    pix out x y = PIL.clip_px (recolor_px r g b (rgba_view (mode img) (pix img x y))).
Proof.
  intros Hc E. unfold change_color in E.
  rewrite (mapM_pure _ (recolor_px r g b)) in E.
  2:{ intros p. unfold recolor_item, recolor_px. destruct (pa p =? 0); [reflexivity|].
      rewrite Hc. reflexivity. }
  cbn [bind] in E. destruct (putdata_map _ _ _ E) as [M [W [H P]]].
  destruct (ensure_rgba_size img) as [Hw Hh].
  rewrite M, W, H, Hw, Hh, ensure_rgba_mode.
  split; [reflexivity|]. split; [reflexivity|]. split; [reflexivity|].
  intros x y Hb. rewrite P by (unfold in_bounds in *; rewrite Hw, Hh; exact Hb).
  rewrite ensure_rgba_pix. reflexivity.
Qed.

Lemma change_color_pix (img : image) (color : string) (r g b : Z) :
  view_bytes img -> hex_to_rgb color = Ok (r, g, b) ->
  exists out, change_color img color = Ok out /\ mode out = RGBA /\
    width out = width img /\ height out = height img /\
    forall x y, in_bounds img x y ->
      pix out x y = PIL.clip_px (recolor_px r g b (rgba_view (mode img) (pix img x y))).
Proof.
  intros Hv Hc.
  assert (E : exists out, change_color img color = Ok out).
  { unfold change_color. rewrite (mapM_pure _ (recolor_px r g b)).
    2:{ intros p. unfold recolor_item, recolor_px. destruct (pa p =? 0); [reflexivity|].
        rewrite Hc. reflexivity. }
    cbn [bind]. apply putdata_map_ok.
    intros x y Hb. rewrite ensure_rgba_pix.
    destruct (hex_to_rgb_small _ _ _ _ Hc) as [R [G B]].
    destruct (Hv x y (ensure_rgba_in img x y Hb)) as [B1 [B2 [B3 B4]]].
    unfold recolor_px. unfold byte in *.
    destruct (_ =? 0); apply ink_ok_small; simpl; lia. }
  destruct E as [out E]. exists out. split; [exact E|].
  exact (change_color_ok img color r g b out Hc E).
Qed.

Lemma change_transparency_ok (img : image) (t : Z) (out : image) :
  change_transparency img t = Ok out ->
  exists op, opacity t = Ok op /\ mode out = RGBA /\
    width out = width img /\ height out = height img /\
    forall x y, in_bounds img x y ->
      pix out x y = PIL.clip_px (retransparency_item op (rgba_view (mode img) (pix img x y))).
Proof.
  unfold change_transparency. destruct (opacity t) as [op|e]; cbn [bind]; [|discriminate].
  intros E. exists op. split; [reflexivity|].
  destruct (putdata_map _ _ _ E) as [M [W [H P]]].
  destruct (ensure_rgba_size img) as [Hw Hh].
  rewrite M, W, H, Hw, Hh, ensure_rgba_mode.
  split; [reflexivity|]. split; [reflexivity|]. split; [reflexivity|].
  intros x y Hb. rewrite P by (unfold in_bounds in *; rewrite Hw, Hh; exact Hb).
  rewrite ensure_rgba_pix. reflexivity.
Qed.

Lemma opacity_range (t : Z) : 0 <= t <= 100 -> 0 <= 255 * (100 - t) / 100 <= 255.
Proof.
  intros Ht. split; [apply Z.div_pos; lia|].
  apply Z.div_le_upper_bound; lia.
Qed.

Lemma change_transparency_pix (img : image) (t : Z) :
  view_bytes img -> 0 <= t <= 100 ->
  exists out, change_transparency img t = Ok out /\ mode out = RGBA /\
    width out = width img /\ height out = height img /\
    forall x y, in_bounds img x y ->
      pix out x y =
      PIL.clip_px (retransparency_item (255 * (100 - t) / 100)
                     (rgba_view (mode img) (pix img x y))).
Proof.
  intros Hv Ht. pose proof (opacity_value t Ht) as Hop.
  pose proof (opacity_range t Ht) as Hr.
  assert (E : exists out, change_transparency img t = Ok out).
  { unfold change_transparency. rewrite Hop. cbn [bind]. apply putdata_map_ok.
    intros x y Hb. rewrite ensure_rgba_pix.
    destruct (Hv x y (ensure_rgba_in img x y Hb)) as [B1 [B2 [B3 B4]]].
    unfold retransparency_item. unfold byte in *.
    revert Hr. generalize (255 * (100 - t) / 100). intros op Hr.
    apply ink_ok_small; simpl; try lia.
    rewrite Z.abs_eq by nia. nia. }
  destruct E as [out E]. exists out. split; [exact E|].
  destruct (change_transparency_ok img t out E) as [op [Hop' R]].
  rewrite Hop in Hop'. injection Hop' as <-. exact R.
Qed.

Lemma clip8_byte (v : Z) : byte v -> PIL.clip8 v = v.
Proof.
  unfold byte, PIL.clip8. intros Hv.
  destruct (v <? 0) eqn:E1; [apply Z.ltb_lt in E1; lia|].
  destruct (255 <? v) eqn:E2; [apply Z.ltb_lt in E2; lia|]. reflexivity.
Qed.

Lemma clip8_nonneg (v : Z) : 0 <= v -> PIL.clip8 v = Z.min 255 v.
Proof.
  unfold PIL.clip8. intros Hv.
  destruct (v <? 0) eqn:E1; [apply Z.ltb_lt in E1; lia|].
  destruct (255 <? v) eqn:E2; [apply Z.ltb_lt in E2; lia|apply Z.ltb_ge in E2; lia].
Qed.

(** C4 (counterexample): with alpha 255 and [t = 0] the opacity byte is 255
    and the product is 65025, but [putdata] stores the alpha through
    [CLIP8]: the output alpha is 255, not the product. *)
Lemma retransparency_alpha_not_product :
  let img := mkImg RGBA 1 1 (fun _ _ => mkPx 0 0 0 255) in
  opacity 0 = Ok 255 /\ pa (pix img 0 0) * 255 = 65025 /\
  exists out, change_transparency img 0 = Ok out /\ pa (pix out 0 0) = 255.
Proof.
  intros img.
  split; [vm_compute; reflexivity|]. split; [reflexivity|].
  eexists. split; [reflexivity|]. vm_compute. reflexivity.
Qed.

(** C4 (amended): [change_transparency] multiplies each pixel's alpha
    (0-255) by the opacity byte (0-255) with no renormalization, and
    [putdata] clips the product to 255: the output alpha is
    [min(255, alpha * opacity)], the colour channels are kept. *)
Theorem retransparency_alpha_clipped_product (img : image) (t : Z)
  (Hwf : wf_image img) (Ht : 0 <= t <= 100) :
  exists op out, opacity t = Ok op /\ change_transparency img t = Ok out /\
    width out = width img /\ height out = height img /\
    forall x y, in_bounds img x y ->
      let p := rgba_view (mode img) (pix img x y) in
      pa (pix out x y) = Z.min 255 (pa p * op) /\
      pr (pix out x y) = pr p /\ pg (pix out x y) = pg p /\ pb (pix out x y) = pb p.
Proof.
  destruct (change_transparency_pix img t (wf_view_bytes img Hwf) Ht)
    as [out [Hout [_ [Hw [Hh Hpx]]]]].
  exists (255 * (100 - t) / 100), out.
  split; [apply opacity_value, Ht|]. split; [exact Hout|].
  split; [exact Hw|]. split; [exact Hh|].
  intros x y Hb p. rewrite Hpx by exact Hb.
  destruct (rgba_view_bytes img x y Hwf Hb) as [B1 [B2 [B3 B4]]].
  fold p in B1, B2, B3, B4 |- *. pose proof (opacity_range t Ht) as Hr.
  revert Hr. generalize (255 * (100 - t) / 100). intros op Hr.
  unfold PIL.clip_px, retransparency_item; simpl.
  rewrite (clip8_byte _ B1), (clip8_byte _ B2), (clip8_byte _ B3).
  rewrite clip8_nonneg by (unfold byte in B4; nia).
  repeat split; reflexivity.
Qed.

Lemma retransparency_alpha_clipped_product_witness :
  wf_image (mkImg RGBA 1 1 (fun _ _ => mkPx 10 20 30 255)) /\ 0 <= 50 <= 100 /\
  exists out, change_transparency (mkImg RGBA 1 1 (fun _ _ => mkPx 10 20 30 255)) 50 = Ok out
              /\ pa (pix out 0 0) = 255.
Proof.
  assert (Hwf : wf_image (mkImg RGBA 1 1 (fun _ _ => mkPx 10 20 30 255))).
  { unfold wf_image, byte; simpl. repeat split; lia. }
  split; [exact Hwf|]. split; [lia|].
  destruct (retransparency_alpha_clipped_product _ 50 Hwf ltac:(lia))
    as [op [out [Hop [Hout [_ [_ Hpx]]]]]].
  exists out. split; [exact Hout|].
  destruct (Hpx 0 0 ltac:(unfold in_bounds; simpl; lia)) as [Ha _].
  vm_compute in Hop. injection Hop as <-.
  rewrite Ha. vm_compute. reflexivity.
Defined.

(** C5: [change_color] keeps every alpha, keeps pixels of alpha 0 whole and
    gives every other pixel the new colour's channels; [change_transparency]
    keeps every pixel's colour channels whenever it returns, and it returns
    for every percent in [0, 100].  An RGB input is read as opaque. *)
Theorem recolor_retransparency_frame (img : image) (color : string) (t r g b : Z)
  (Hwf : wf_image img) (Hc : hex_to_rgb color = Ok (r, g, b))
  (Hr : byte r) (Hg : byte g) (Hb : byte b) :
  (exists out, change_color img color = Ok out /\
     width out = width img /\ height out = height img /\
     forall x y, in_bounds img x y ->
       let p := rgba_view (mode img) (pix img x y) in
       pa (pix out x y) = pa p /\
       (pa p = 0 -> pix out x y = p) /\
       (pa p <> 0 -> pr (pix out x y) = r /\ pg (pix out x y) = g /\ pb (pix out x y) = b)) /\
  (forall out, change_transparency img t = Ok out ->
     width out = width img /\ height out = height img /\
     forall x y, in_bounds img x y ->
       let p := rgba_view (mode img) (pix img x y) in
       pr (pix out x y) = pr p /\ pg (pix out x y) = pg p /\ pb (pix out x y) = pb p) /\
  (0 <= t <= 100 -> exists out, change_transparency img t = Ok out).
Proof.
  split; [|split].
  - destruct (change_color_pix img color r g b (wf_view_bytes img Hwf) Hc)
      as [out [Hout [_ [Hw [Hh Hpx]]]]].
    exists out. split; [exact Hout|]. split; [exact Hw|]. split; [exact Hh|].
    intros x y Hin p. rewrite Hpx by exact Hin.
    destruct (rgba_view_bytes img x y Hwf Hin) as [B1 [B2 [B3 B4]]].
    fold p in B1, B2, B3, B4 |- *.
    unfold recolor_px. destruct (pa p =? 0) eqn:E.
    + apply Z.eqb_eq in E. unfold PIL.clip_px; simpl.
      rewrite !clip8_byte by assumption.
      split; [reflexivity|]. split; [intros _; destruct p; reflexivity|].
      intros H; contradiction.
    + apply Z.eqb_neq in E. unfold PIL.clip_px; simpl.
      rewrite !clip8_byte by assumption.
      split; [reflexivity|]. split; [intros H; contradiction|].
      intros _. repeat split; reflexivity.
  - intros out Hout.
    destruct (change_transparency_ok img t out Hout) as [op [_ [_ [Hw [Hh Hpx]]]]].
    split; [exact Hw|]. split; [exact Hh|].
    intros x y Hin p. rewrite Hpx by exact Hin.
    destruct (rgba_view_bytes img x y Hwf Hin) as [B1 [B2 [B3 B4]]].
    fold p in B1, B2, B3, B4 |- *.
    unfold PIL.clip_px, retransparency_item; simpl.
    rewrite !clip8_byte by assumption. repeat split; reflexivity.
  - intros Ht.
    destruct (change_transparency_pix img t (wf_view_bytes img Hwf) Ht) as [out [Hout _]].
    exists out. exact Hout.
Qed.

Lemma recolor_retransparency_frame_witness :
  (exists out, change_color (mkImg RGB 1 1 (fun _ _ => mkPx 1 2 3 0)) "#FF8000" = Ok out /\
               pix out 0 0 = mkPx 255 128 0 255) /\
  (exists out, change_transparency (mkImg RGB 1 1 (fun _ _ => mkPx 1 2 3 0)) 40 = Ok out /\
               pr (pix out 0 0) = 1).
Proof.
  assert (Hwf : wf_image (mkImg RGB 1 1 (fun _ _ => mkPx 1 2 3 0))).
  { unfold wf_image, byte; simpl. repeat split; lia. }
  destruct (recolor_retransparency_frame _ "#FF8000" 40 255 128 0 Hwf eq_refl)
    as [[out [Hout [_ [_ Hpx]]]] [Ht Hex]]; try (unfold byte; lia).
  split.
  - exists out. split; [exact Hout|].
    destruct (Hpx 0 0 ltac:(unfold in_bounds; simpl; lia)) as [Ha [_ Hrgb]].
    simpl in Ha, Hrgb. destruct Hrgb as [E1 [E2 E3]]; [discriminate|].
    destruct (pix out 0 0). simpl in *. subst. reflexivity.
  - destruct (Hex ltac:(lia)) as [o2 E2]. exists o2. split; [exact E2|].
    destruct (Ht o2 E2) as [_ [_ P]].
    destruct (P 0 0 ltac:(unfold in_bounds; simpl; lia)) as [R _]. exact R.
Defined.


(** ** Object identity *)

(** A store holding one RGBA raster at object 0. *)
Definition store1 (img : image) : store :=
  mkStore 1%nat (fun j => if Nat.eqb j 0%nat then Some img else None).

(** C3 (failing input): [change_color] on an RGBA raster does not convert,
    so [image.putdata] writes into the caller's object, which is also the
    object returned: after the call, the caller's raster at object 0 has
    been recoloured. *)
Lemma change_color_writes_caller_raster :
  let img := mkImg RGBA 1 1 (fun _ _ => mkPx 0 0 0 255) in
  exists s', change_color_ref (store1 img) 0%nat "#FF0000" = Ok (s', 0%nat) /\
    pix img 0 0 = mkPx 0 0 0 255 /\
    exists img', objs s' 0%nat = Some img' /\ pix img' 0 0 = mkPx 255 0 0 255.
Proof.
  intros img. eexists. split; [reflexivity|]. split; [reflexivity|].
  eexists. split; [reflexivity|]. reflexivity.
Qed.

(** The same for [change_transparency]: the caller's alpha is rewritten. *)
Lemma change_transparency_writes_caller_raster :
  let img := mkImg RGBA 1 1 (fun _ _ => mkPx 0 0 0 1) in
  exists s', change_transparency_ref (store1 img) 0%nat 100 = Ok (s', 0%nat) /\
    pix img 0 0 = mkPx 0 0 0 1 /\
    exists img', objs s' 0%nat = Some img' /\ pix img' 0 0 = mkPx 0 0 0 0.
Proof.
  intros img. eexists. split; [reflexivity|]. split; [reflexivity|].
  eexists. split; [reflexivity|]. vm_compute. reflexivity.
Qed.

(** ** Overlay *)

Definition opaque4 (r g b : Z) : image := mkImg RGBA 4 4 (fun _ _ => mkPx r g b 255).

(** C1 (failing input): a 4x4 overlay placed with [offset_x = 2] on a 4x4
    base lies wholly right of the base ([x = 8]); the last-column crop is
    [crop((0, 0, 4 - 8, 4))], whose right edge is left of its left edge,
    and Pillow raises [ValueError]. *)
Lemma overlay_images_raises_right_of_base :
  overlay_images (opaque4 10 20 30) (opaque4 1 2 3) 2 0 255 = Err ValueError.
Proof. reflexivity. Qed.

(** The same on the left: [offset_x = -2] gives [crop((8, 0, 4, 4))]. *)
Lemma overlay_images_raises_left_of_base :
  overlay_images (opaque4 10 20 30) (opaque4 1 2 3) (-2) 0 255 = Err ValueError.
Proof. reflexivity. Qed.

Lemma div255_table :
  forallb (fun i => PIL.div255 (i * 255) =? i) (range 256) = true.
Proof. vm_compute. reflexivity. Qed.

Lemma blend_opaque (o i : Z) : byte i -> PIL.blend 255 o i = i.
Proof.
  intros Hi. unfold PIL.blend. rewrite Z.sub_diag, Z.mul_0_r, Z.add_0_l.
  apply Z.eqb_eq. apply (forallb_range _ 256 i div255_table). unfold byte in Hi. lia.
Qed.

(** C8: an overlay of the base's size whose pixels are all opaque, placed
    at [(0, 0)] with [transparency = 255], replaces every pixel of the
    result by the overlay's (read as RGBA). *)
Theorem overlay_opaque_same_size (base ov : image)
  (Hwf : wf_image ov) (Hw : width ov = width base) (Hh : height ov = height base)
  (Hopaque : forall x y, in_bounds ov x y -> pa (rgba_view (mode ov) (pix ov x y)) = 255) :
  exists out, overlay_images base ov 0 0 255 = Ok out /\
    same_image out (PIL.convert_rgba ov).
Proof.
  destruct (ensure_rgba_size ov) as [Ew Eh].
  unfold overlay_images. cbn [Z.mul Z.ltb Z.compare].
  rewrite Z.ltb_irrefl. cbn [bind].
  rewrite Ew, Eh, Z.add_0_l, <- Hw, <- Hh, Z.ltb_irrefl, Z.ltb_irrefl. cbn [bind].
  eexists. split; [reflexivity|].
  unfold same_image; simpl. split; [reflexivity|]. split; [exact (eq_sym Hw)|].
  split; [exact (eq_sym Hh)|].
  intros X Y [HX HY]. simpl in HX, HY. rewrite <- Hw in HX. rewrite <- Hh in HY.
  assert (Hin : in_bounds ov X Y) by (split; assumption).
  unfold PIL.covered. rewrite Ew, Eh, !Z.sub_0_r.
  replace ((0 <=? X) && (X <? width ov) && (0 <=? Y) && (Y <? height ov)) with true
    by (symmetry; repeat rewrite andb_true_iff; repeat split; lia).
  rewrite ensure_rgba_pix.
  pose proof (Hopaque X Y Hin) as HA.
  destruct (rgba_view_bytes ov X Y Hwf Hin) as [B1 [B2 [B3 B4]]].
  destruct (rgba_view (mode ov) (pix ov X Y)) as [r g b a]; simpl in *. subst a.
  rewrite !blend_opaque by (assumption || (unfold byte; lia)). reflexivity.
Qed.

Lemma overlay_opaque_same_size_witness :
  exists out, overlay_images (opaque4 10 20 30) (opaque4 1 2 3) 0 0 255 = Ok out /\
              same_image out (opaque4 1 2 3).
Proof.
  destruct (overlay_opaque_same_size (opaque4 10 20 30) (opaque4 1 2 3))
    as [out [Hout Hsame]].
  - unfold wf_image, byte; simpl. repeat split; lia.
  - reflexivity.
  - reflexivity.
  - intros; reflexivity.
  - exists out. split; [exact Hout|]. exact Hsame.
Defined.

(** ** Rectangular pattern *)

(** The tile composited over [canvas] with its top-left corner at
    [(dx, dy)]: what [canvas.alpha_composite(tile, (dx, dy))] leaves in the
    canvas, stated pixelwise. *)
Definition composite_over (canvas tile : image) (dx dy : Z) : image :=
  mkImg (mode canvas) (width canvas) (height canvas) (fun X Y =>
    if PIL.covered tile dx dy X Y
    then PIL.composite_px (pix canvas X Y) (pix tile (X - dx) (Y - dy))
    else pix canvas X Y).

Lemma alpha_composite_at_over (self tile : image) (dx dy : Z) :
  mode self = RGBA -> mode tile = RGBA -> 0 <= width tile -> 0 <= height tile ->
  exists out, PIL.alpha_composite_at self tile dx dy = Ok out /\
    same_image out (composite_over self tile dx dy).
Proof.
  intros Hms Hmt Hw Hh. unfold PIL.alpha_composite_at.
  destruct ((dx =? 0) && (dy =? 0) && (dx + width tile =? width self) &&
            (dy + height tile =? height self)) eqn:Ebox.
  - repeat (apply andb_prop in Ebox as [Ebox ?E]). rewrite Z.eqb_eq in *. subst dx dy.
    cbn [bind]. unfold PIL.alpha_composite. rewrite Hms, Hmt. simpl.
    rewrite <- E, <- E0. rewrite !Z.eqb_refl. simpl.
    eexists. split; [reflexivity|].
    unfold same_image; simpl. repeat split; try reflexivity.
    intros X Y _. unfold PIL.covered; simpl. rewrite !Z.sub_0_r. reflexivity.
  - unfold PIL.crop.
    replace (dx + width tile <? dx) with false by (symmetry; apply Z.ltb_ge; lia).
    replace (dy + height tile <? dy) with false by (symmetry; apply Z.ltb_ge; lia).
    cbn [bind]. unfold PIL.alpha_composite. simpl. rewrite Hms, Hmt. simpl.
    replace (dx + width tile - dx =? width tile) with true by (symmetry; apply Z.eqb_eq; lia).
    replace (dy + height tile - dy =? height tile) with true by (symmetry; apply Z.eqb_eq; lia).
    simpl. eexists. split; [reflexivity|].
    unfold same_image; simpl. repeat split; try reflexivity.
    intros X Y [HX HY]. simpl in HX, HY. unfold PIL.covered; simpl.
    replace (dx + width tile - dx) with (width tile) by lia.
    replace (dy + height tile - dy) with (height tile) by lia.
    replace (dx + (X - dx)) with X by lia. replace (dy + (Y - dy)) with Y by lia.
    replace ((0 <=? X) && (X <? width self) && (0 <=? Y) && (Y <? height self)) with true
      by (symmetry; repeat rewrite andb_true_iff; repeat split; lia).
    reflexivity.
Qed.

Lemma same_image_trans (a b c : image) :
  same_image a b -> same_image b c -> same_image a c.
Proof.
  intros [M1 [W1 [H1 P1]]] [M2 [W2 [H2 P2]]].
  split; [congruence|]. split; [congruence|]. split; [congruence|].
  intros x y Hb. rewrite P1 by exact Hb. apply P2.
  unfold in_bounds in *. rewrite <- W1, <- H1. exact Hb.
Qed.

Lemma composite_over_same (a b tile : image) (dx dy : Z) :
  same_image a b -> same_image (composite_over a tile dx dy) (composite_over b tile dx dy).
Proof.
  intros [M [W [H P]]]. unfold same_image, composite_over; simpl.
  split; [exact M|]. split; [exact W|]. split; [exact H|].
  intros x y Hb. rewrite P by exact Hb. reflexivity.
Qed.

(** The offsets in the order of the two loops: [x] outer, [y] inner. *)
Definition pattern_offsets (count_x count_y step_x step_y : Z) : list (Z * Z) :=
  flat_map (fun x => map (fun y => (x * step_x, y * step_y)) (range count_y))
           (range count_x).

Definition draw_tiles (canvas tile : image) (offsets : list (Z * Z)) : image :=
  fold_left (fun c '(dx, dy) => composite_over c tile dx dy) offsets canvas.

(** The size [rectangular_pattern] computes for one axis (scaled step). *)
Definition pattern_extent (count step dim : Z) : Z :=
  count * step + (if step <? dim then dim - step else 0).

Lemma length_pattern_offsets (count_x count_y sx sy : Z) :
  List.length (pattern_offsets count_x count_y sx sy) = (Z.to_nat count_x * Z.to_nat count_y)%nat.
Proof.
  unfold pattern_offsets. rewrite <- (length_range count_x), <- (length_range count_y).
  induction (range count_x) as [|a l IH]; simpl; [reflexivity|].
  rewrite length_app, length_map, IH. reflexivity.
Qed.

Lemma draw_tiles_mode (c tile : image) (offsets : list (Z * Z)) :
  mode (draw_tiles c tile offsets) = mode c.
Proof.
  unfold draw_tiles. revert c.
  induction offsets as [|[dx dy] l IH]; intros c; [reflexivity|]. simpl. rewrite IH. reflexivity.
Qed.

Lemma draw_tiles_size (c tile : image) (offsets : list (Z * Z)) :
  width (draw_tiles c tile offsets) = width c /\ height (draw_tiles c tile offsets) = height c.
Proof.
  unfold draw_tiles. revert c.
  induction offsets as [|[dx dy] l IH]; intros c; [split; reflexivity|].
  simpl. destruct (IH (composite_over c tile dx dy)) as [E1 E2].
  rewrite E1, E2. split; reflexivity.
Qed.

Section Tiling.
Variable tile : image.
Hypothesis Hmode : mode tile = RGBA.
Hypothesis Hw : 0 <= width tile.
Hypothesis Hh : 0 <= height tile.
Variables step_x step_y : Z.

Lemma tile_column (x : Z) (ys : list Z) :
  forall c c0, mode c0 = RGBA -> same_image c c0 ->
  exists out,
    foldM (fun canvas y => PIL.alpha_composite_at canvas tile (x * step_x) (y * step_y)) ys c
      = Ok out /\
    same_image out (draw_tiles c0 tile (map (fun y => (x * step_x, y * step_y)) ys)).
Proof.
  induction ys as [|y ys IH]; intros c c0 Hm0 Hs.
  - exists c. split; [reflexivity|exact Hs].
  - assert (Hmc : mode c = RGBA) by (destruct Hs as [M _]; congruence).
    destruct (alpha_composite_at_over c tile (x * step_x) (y * step_y) Hmc Hmode Hw Hh)
      as [c1 [E1 S1]].
    simpl. rewrite E1. cbn [bind].
    apply IH; [exact Hm0|].
    eapply same_image_trans; [exact S1|]. apply composite_over_same, Hs.
Qed.

Lemma tile_grid (count_y : Z) (xs : list Z) :
  forall c c0, mode c0 = RGBA -> same_image c c0 ->
  exists out,
    foldM (fun canvas x =>
             foldM (fun canvas y =>
                      PIL.alpha_composite_at canvas tile (x * step_x) (y * step_y))
                   (range count_y) canvas) xs c = Ok out /\
    same_image out
      (draw_tiles c0 tile
         (flat_map (fun x => map (fun y => (x * step_x, y * step_y)) (range count_y)) xs)).
Proof.
  induction xs as [|x xs IH]; intros c c0 Hm0 Hs.
  - exists c. split; [reflexivity|exact Hs].
  - destruct (tile_column x (range count_y) c c0 Hm0 Hs) as [c1 [E1 S1]].
    simpl. rewrite E1. cbn [bind].
    unfold draw_tiles. rewrite fold_left_app. fold (draw_tiles c0 tile
      (map (fun y => (x * step_x, y * step_y)) (range count_y))).
    apply IH; [|exact S1]. rewrite draw_tiles_mode. exact Hm0.
Qed.
End Tiling.

Definition clear_canvas (w h : Z) : image := mkImg RGBA w h (fun _ _ => mkPx 255 255 255 0).

Lemma rectangular_pattern_unfold (tile : image) (count_x count_y step_x step_y : Z) :
  0 <= pattern_extent count_x (step_x * SCALE_FACTOR) (width tile) ->
  0 <= pattern_extent count_y (step_y * SCALE_FACTOR) (height tile) ->
  rectangular_pattern tile count_x count_y step_x step_y =
  foldM (fun canvas x =>
           foldM (fun canvas y =>
                    PIL.alpha_composite_at canvas tile (x * (step_x * SCALE_FACTOR))
                      (y * (step_y * SCALE_FACTOR)))
                 (range count_y) canvas)
        (range count_x)
        (clear_canvas (pattern_extent count_x (step_x * SCALE_FACTOR) (width tile))
                      (pattern_extent count_y (step_y * SCALE_FACTOR) (height tile))).
Proof.
  unfold pattern_extent. intros HW HH. unfold rectangular_pattern, PIL.new.
  replace (_ <? 0) with false by (symmetry; apply Z.ltb_ge; exact HW).
  replace (_ <? 0) with false by (symmetry; apply Z.ltb_ge; exact HH).
  reflexivity.
Qed.

(** [alpha_composite] refuses an RGB overlay: whichever background
    [alpha_composite_at] takes, the call raises [ValueError]. *)
Lemma alpha_composite_at_rgb (self im : image) (dx dy : Z) :
  mode im = RGB -> PIL.alpha_composite_at self im dx dy = Err ValueError.
Proof.
  intros Hm. unfold PIL.alpha_composite_at.
  assert (A : forall bg, PIL.alpha_composite bg im = Err ValueError).
  { intros bg. unfold PIL.alpha_composite. rewrite Hm, andb_false_r. reflexivity. }
  destruct (_ && _); cbn [bind]; [rewrite A; reflexivity|].
  unfold PIL.crop. destruct (_ <? dx); [reflexivity|]. destruct (_ <? dy); [reflexivity|].
  cbn [bind]. rewrite A. reflexivity.
Qed.

Lemma range_pos (n : Z) : 1 <= n -> exists l, range n = 0 :: l.
Proof.
  intros Hn. unfold range. destruct (Z.to_nat n) eqn:E; [lia|]. simpl. eexists. reflexivity.
Qed.

(** Size of the canvas: [Image.new] raises [ValueError] when the size
    computed for either axis is negative, before any copy is drawn. *)
Lemma rectangular_pattern_neg_extent (tile : image) (count_x count_y step_x step_y : Z) :
  pattern_extent count_x (step_x * SCALE_FACTOR) (width tile) < 0 \/
  pattern_extent count_y (step_y * SCALE_FACTOR) (height tile) < 0 ->
  rectangular_pattern tile count_x count_y step_x step_y = Err ValueError.
Proof.
  unfold pattern_extent, rectangular_pattern, PIL.new. cbv zeta. intros [H|H].
  - rewrite (proj2 (Z.ltb_lt _ 0) H). reflexivity.
  - rewrite (proj2 (Z.ltb_lt _ 0) H), orb_true_r. reflexivity.
Qed.

(** C9: an RGB tile (for instance a JPEG loaded by [shape_from_url]) makes
    [rectangular_pattern] raise [ValueError] as soon as one copy is drawn:
    the canvas is RGBA, the tile is passed to [alpha_composite] without a
    conversion, and [alpha_composite] requires both images in RGBA. *)
Theorem rectangular_pattern_rgb_tile (tile : image) (count_x count_y step_x step_y : Z)
  (Hmode : mode tile = RGB) (Hcx : 1 <= count_x) (Hcy : 1 <= count_y) :
  rectangular_pattern tile count_x count_y step_x step_y = Err ValueError.
Proof.
  destruct (Z_lt_le_dec (pattern_extent count_x (step_x * SCALE_FACTOR) (width tile)) 0) as [HW|HW];
    [apply rectangular_pattern_neg_extent; left; exact HW|].
  destruct (Z_lt_le_dec (pattern_extent count_y (step_y * SCALE_FACTOR) (height tile)) 0) as [HH|HH];
    [apply rectangular_pattern_neg_extent; right; exact HH|].
  rewrite rectangular_pattern_unfold by assumption.
  destruct (range_pos count_x Hcx) as [lx ->]. destruct (range_pos count_y Hcy) as [ly ->].
  cbn [foldM]. rewrite alpha_composite_at_rgb by exact Hmode. reflexivity.
Qed.

Lemma rectangular_pattern_rgb_tile_witness :
  mode (mkImg RGB 4 4 (fun _ _ => mkPx 0 0 0 0)) = RGB /\ 1 <= 1 /\
  rectangular_pattern (mkImg RGB 4 4 (fun _ _ => mkPx 0 0 0 0)) 1 1 1 1 = Err ValueError.
Proof.
  split; [reflexivity|]. split; [lia|].
  apply rectangular_pattern_rgb_tile; [reflexivity|lia|lia].
Defined.

(** For an RGBA tile, nonnegative steps and counts whose computed width and
    height are nonnegative, [rectangular_pattern] returns a raster of width
    [count_x * step_x + (tile width - step_x)] (the second term only when
    the scaled step is smaller than the tile width; likewise for the
    height), equal to a transparent canvas over which
    [count_x * count_y] copies of the tile are composited one after the
    other at [(i * step_x, j * step_y)], [i] in the outer loop and [j] in
    the inner. *)
Theorem rectangular_pattern_tiles (tile : image) (count_x count_y step_x step_y : Z)
  (Hmode : mode tile = RGBA) (Hw : 0 <= width tile) (Hh : 0 <= height tile)
  (Hsx : 0 <= step_x) (Hsy : 0 <= step_y)
  (HW : 0 <= pattern_extent count_x (step_x * SCALE_FACTOR) (width tile))
  (HH : 0 <= pattern_extent count_y (step_y * SCALE_FACTOR) (height tile)) :
  exists out, rectangular_pattern tile count_x count_y step_x step_y = Ok out /\
    width out = pattern_extent count_x (step_x * SCALE_FACTOR) (width tile) /\
    height out = pattern_extent count_y (step_y * SCALE_FACTOR) (height tile) /\
    List.length (pattern_offsets count_x count_y (step_x * SCALE_FACTOR) (step_y * SCALE_FACTOR))
      = (Z.to_nat count_x * Z.to_nat count_y)%nat /\
    same_image out
      (draw_tiles
         (clear_canvas (pattern_extent count_x (step_x * SCALE_FACTOR) (width tile))
                       (pattern_extent count_y (step_y * SCALE_FACTOR) (height tile)))
         tile (pattern_offsets count_x count_y (step_x * SCALE_FACTOR) (step_y * SCALE_FACTOR))).
Proof.
  rewrite rectangular_pattern_unfold by assumption.
  set (c := clear_canvas (pattern_extent count_x (step_x * SCALE_FACTOR) (width tile))
                         (pattern_extent count_y (step_y * SCALE_FACTOR) (height tile))).
  destruct (tile_grid tile Hmode Hw Hh (step_x * SCALE_FACTOR) (step_y * SCALE_FACTOR)
              count_y (range count_x) c c eq_refl
              ltac:(repeat split; reflexivity)) as [out [E S]].
  fold (pattern_offsets count_x count_y (step_x * SCALE_FACTOR) (step_y * SCALE_FACTOR)) in S.
  exists out. split; [exact E|].
  destruct (draw_tiles_size c tile
      (pattern_offsets count_x count_y (step_x * SCALE_FACTOR) (step_y * SCALE_FACTOR)))
    as [DW DH].
  pose proof S as [_ [SW [SH _]]].
  split; [rewrite SW, DW; reflexivity|].
  split; [rewrite SH, DH; reflexivity|].
  split; [apply length_pattern_offsets|exact S].
Qed.

Lemma rectangular_pattern_tiles_witness :
  exists out, rectangular_pattern (opaque4 1 2 3) 2 3 1 1 = Ok out /\
    width out = 8 /\ height out = 12.
Proof.
  destruct (rectangular_pattern_tiles (opaque4 1 2 3) 2 3 1 1) as [out [E [W [H _]]]].
  - reflexivity.
  - simpl. lia.
  - simpl. lia.
  - lia.
  - lia.
  - unfold pattern_extent, SCALE_FACTOR. simpl. lia.
  - unfold pattern_extent, SCALE_FACTOR. simpl. lia.
  - exists out. split; [exact E|]. split; [exact W|exact H].
Defined.

Lemma foldM_inner_nil {A B C} (f : A -> B -> C -> result B) (l : list A) (c : B) :
  foldM (fun canvas x => foldM (f x) [] canvas) l c = Ok c.
Proof. induction l as [|a l IH]; [reflexivity|exact IH]. Qed.

(** C10 (counterexample): with [count_x = 0], [count_y = 3] and
    [step_y = -1], the computed height [3 * (-4) + (4 - (-4)) = -4] is
    negative and [Image.new] raises [ValueError]. *)
Lemma rectangular_pattern_zero_count_raises :
  rectangular_pattern (opaque4 1 2 3) 0 3 1 (-1) = Err ValueError.
Proof. reflexivity. Qed.

(** C10 (amended): when [count_x = 0] or [count_y = 0] and the size
    computed for both axes is nonnegative (always so on the zero-count
    axis, and on the other axis in particular for a nonnegative step), no
    copy of the tile is composited: the result is the fully transparent
    canvas [(255, 255, 255, 0)] of the computed size, whose extent on a
    zero-count axis is 0 when the scaled step is at least the tile's
    dimension and [dim - step] otherwise.  When the size computed for an
    axis is negative, [Image.new] raises [ValueError]. *)
Theorem rectangular_pattern_zero_count (tile : image) (count_x count_y step_x step_y : Z)
  (Hzero : count_x = 0 \/ count_y = 0) :
  (0 <= pattern_extent count_x (step_x * SCALE_FACTOR) (width tile) ->
   0 <= pattern_extent count_y (step_y * SCALE_FACTOR) (height tile) ->
  exists out, rectangular_pattern tile count_x count_y step_x step_y = Ok out /\
    mode out = RGBA /\
    width out = pattern_extent count_x (step_x * SCALE_FACTOR) (width tile) /\
    height out = pattern_extent count_y (step_y * SCALE_FACTOR) (height tile) /\
    (forall x y, pix out x y = mkPx 255 255 255 0) /\
    (count_x = 0 -> width out =
       if step_x * SCALE_FACTOR <? width tile then width tile - step_x * SCALE_FACTOR else 0) /\
    (count_y = 0 -> height out =
       if step_y * SCALE_FACTOR <? height tile then height tile - step_y * SCALE_FACTOR else 0)) /\
  (pattern_extent count_x (step_x * SCALE_FACTOR) (width tile) < 0 \/
   pattern_extent count_y (step_y * SCALE_FACTOR) (height tile) < 0 ->
   rectangular_pattern tile count_x count_y step_x step_y = Err ValueError).
Proof.
  split; [|apply rectangular_pattern_neg_extent].
  intros HW HH.
  rewrite rectangular_pattern_unfold by assumption.
  exists (clear_canvas (pattern_extent count_x (step_x * SCALE_FACTOR) (width tile))
                       (pattern_extent count_y (step_y * SCALE_FACTOR) (height tile))).
  split.
  - destruct Hzero as [-> | ->]; [reflexivity|].
    change (range 0) with (@nil Z). apply foldM_inner_nil.
  - simpl. split; [reflexivity|]. split; [reflexivity|]. split; [reflexivity|].
    split; [reflexivity|].
    unfold pattern_extent. split; intros ->; reflexivity.
Qed.

Lemma rectangular_pattern_zero_count_witness :
  (exists out, rectangular_pattern (opaque4 1 2 3) 0 2 0 1 = Ok out /\
    width out = 4 /\ height out = 8) /\
  rectangular_pattern (opaque4 1 2 3) 0 3 1 (-1) = Err ValueError.
Proof.
  split.
  - destruct (rectangular_pattern_zero_count (opaque4 1 2 3) 0 2 0 1) as [H1 _].
    + left; reflexivity.
    + destruct H1 as [out [E [_ [W [H _]]]]].
      * unfold pattern_extent, SCALE_FACTOR. simpl. lia.
      * unfold pattern_extent, SCALE_FACTOR. simpl. lia.
      * exists out. split; [exact E|]. split; [exact W|exact H].
  - destruct (rectangular_pattern_zero_count (opaque4 1 2 3) 0 3 1 (-1)) as [_ H2].
    + left; reflexivity.
    + apply H2. right. unfold pattern_extent, SCALE_FACTOR. simpl. lia.
Defined.

(** ** Overlay: the clipping crops *)

Lemma overlay_images_clip (base ov : image) (offset_x offset_y transparency : Z) :
  overlay_images base ov offset_x offset_y transparency =
  (src <- overlay_source ov transparency;;
   overlay_clip base src (offset_x * SCALE_FACTOR) (offset_y * SCALE_FACTOR)).
Proof. reflexivity. Qed.

Lemma mapM_length {A B} (f : A -> result B) (l : list A) (l' : list B) :
  mapM f l = Ok l' -> List.length l' = List.length l.
Proof.
  revert l'. induction l as [|a l IH]; intros l' E; simpl in E.
  - injection E as <-. reflexivity.
  - destruct (f a) as [b|e]; cbn [bind] in E; [|discriminate].
    destruct (mapM f l) as [bs|e] eqn:Es; cbn [bind] in E; [|discriminate].
    injection E as <-. simpl. rewrite (IH bs eq_refl). reflexivity.
Qed.

Lemma mapM_nth {A B} (f : A -> result B) (l : list A) (l' : list B) (n : nat) (a0 : A) (b0 : B) :
  mapM f l = Ok l' -> (n < List.length l)%nat -> f (nth n l a0) = Ok (nth n l' b0).
Proof.
  revert l' n. induction l as [|a l IH]; intros l' n E Hn; simpl in *; [lia|].
  destruct (f a) as [b|e] eqn:Ea; cbn [bind] in E; [|discriminate].
  destruct (mapM f l) as [bs|e] eqn:Es; cbn [bind] in E; [|discriminate].
  injection E as <-. destruct n as [|n]; [exact Ea|]. simpl. apply IH; [reflexivity|lia].
Qed.

Lemma nth_range (n : Z) (k : nat) : (k < Z.to_nat n)%nat -> nth k (range n) 0 = Z.of_nat k.
Proof.
  intros Hk. unfold range. change 0 with (Z.of_nat 0). rewrite map_nth, seq_nth by exact Hk.
  reflexivity.
Qed.

(** The table entry [a] is the scaled value of [a]. *)
Lemma scale_lut_nth (t a : Z) (lut : list Z) :
  scale_lut t = Ok lut -> 0 <= a < 256 ->
  scale_alpha_value t a = Ok (nth (Z.to_nat a) lut 0).
Proof.
  intros E Ha. unfold scale_lut in E.
  destruct (mapM (scale_alpha_lambda t) (range 256)) as [vals|e] eqn:E1; cbn [bind] in E;
    [|discriminate].
  assert (Hn : (Z.to_nat a < Z.to_nat 256)%nat) by lia.
  pose proof (mapM_nth _ _ _ (Z.to_nat a) 0 0 E1) as H1.
  rewrite length_range, nth_range in H1 by exact Hn. specialize (H1 Hn).
  rewrite Z2Nat.id in H1 by lia.
  pose proof (mapM_nth _ _ _ (Z.to_nat a) 0 0 E) as H2.
  rewrite (mapM_length _ _ _ E1), length_range in H2. specialize (H2 Hn).
  unfold scale_alpha_value. rewrite H1. cbn [bind]. exact H2.
Qed.

Lemma overlay_source_size (ov src : image) (t : Z) :
  overlay_source ov t = Ok src -> width src = width ov /\ height src = height ov.
Proof.
  unfold overlay_source. destruct (ensure_rgba_size ov) as [Hw Hh].
  destruct (t <? 255).
  - unfold scale_alpha. destruct (scale_lut t); cbn [bind]; [|discriminate].
    intros E. injection E as <-. simpl. split; assumption.
  - intros E. injection E as <-. split; assumption.
Qed.

Lemma overlay_source_pix (ov src : image) (t x y : Z) :
  overlay_source ov t = Ok src ->
  let p := rgba_view (mode ov) (pix ov x y) in
  0 <= pa p < 256 ->
  exists v, (if t <? 255 then scale_alpha_value t (pa p) = Ok v else v = pa p) /\
    pix src x y = mkPx (pr p) (pg p) (pb p) v.
Proof.
  intros E p Hp. unfold overlay_source in E. destruct (t <? 255).
  - unfold scale_alpha in E. destruct (scale_lut t) as [lut|e] eqn:El; cbn [bind] in E;
      [|discriminate].
    injection E as <-. exists (nth (Z.to_nat (pa p)) lut 0).
    split; [apply scale_lut_nth; assumption|].
    simpl. rewrite ensure_rgba_pix. reflexivity.
  - injection E as <-. exists (pa p). split; [reflexivity|].
    rewrite ensure_rgba_pix. fold p. destruct p; reflexivity.
Qed.

(** [scale_lut] returns for every transparency in [0, 255). *)
Definition is_ok {A} (r : result A) : bool := match r with Ok _ => true | Err _ => false end.

Lemma scale_lut_table : forallb (fun t => is_ok (scale_lut t)) (range 255) = true.
Proof. vm_compute. reflexivity. Qed.

Lemma overlay_source_ok (ov : image) (t : Z) :
  0 <= t -> exists src, overlay_source ov t = Ok src.
Proof.
  intros Ht. unfold overlay_source. destruct (Z.ltb_spec t 255).
  - unfold scale_alpha.
    pose proof (forallb_range _ 255 t scale_lut_table ltac:(lia)) as T. cbv beta in T.
    destruct (scale_lut t); [|discriminate]. cbn [bind]. eexists; reflexivity.
  - eexists; reflexivity.
Qed.

(** Over the base's pixels, the clipped overlay [ovk] placed at [(xk, yk)]
    covers every pixel [src] covers at [(x0, y0)], with [src]'s pixel there,
    and holds zero pixels elsewhere. *)
Definition overlay_window (src ovk : image) (x0 y0 xk yk bw bh : Z) : Prop :=
  forall X Y, 0 <= X < bw -> 0 <= Y < bh ->
    (PIL.covered src x0 y0 X Y = true -> PIL.covered ovk xk yk X Y = true) /\
    (PIL.covered ovk xk yk X Y = true ->
       pix ovk (X - xk) (Y - yk) =
       if PIL.covered src x0 y0 X Y then pix src (X - x0) (Y - y0) else mkPx 0 0 0 0).

Lemma overlay_window_refl (src : image) (x0 y0 bw bh : Z) :
  overlay_window src src x0 y0 x0 y0 bw bh.
Proof. intros X Y _ _. split; [auto|]. intros ->. reflexivity. Qed.

Lemma covered_iff (im : image) (dx dy X Y : Z) :
  PIL.covered im dx dy X Y = true <->
  0 <= X - dx < width im /\ 0 <= Y - dy < height im.
Proof.
  unfold PIL.covered. rewrite !andb_true_iff, !Z.leb_le, !Z.ltb_lt. tauto.
Qed.

(** One optional crop of [overlay_images] keeps the window, provided the
    new box still holds every pixel the previous one covered. *)
Lemma overlay_window_step (src prev nw : image) (b : bool) (x0 y0 xp yp l u r lo bw bh : Z) :
  overlay_window src prev x0 y0 xp yp bw bh ->
  (if b then PIL.crop prev l u r lo else Ok prev) = Ok nw ->
  (b = true -> forall X Y, 0 <= X < bw -> 0 <= Y < bh ->
     PIL.covered prev xp yp X Y = true ->
     0 <= X - (xp + l) < r - l /\ 0 <= Y - (yp + u) < lo - u) ->
  overlay_window src nw x0 y0 (if b then xp + l else xp) (if b then yp + u else yp) bw bh /\
  width nw = (if b then r - l else width prev) /\
  height nw = (if b then lo - u else height prev).
Proof.
  intros Hw Hc Hcov. destruct b; [|injection Hc as <-; auto].
  specialize (Hcov eq_refl). unfold PIL.crop in Hc.
  destruct (r <? l); [discriminate|]. destruct (lo <? u); [discriminate|].
  injection Hc as <-. simpl. split; [|split; reflexivity].
  intros X Y HX HY. destruct (Hw X Y HX HY) as [W1 W2]. split.
  - intros Hs. apply covered_iff. simpl. apply Hcov; auto.
  - intros _. cbn [pix].
    replace (l + (X - (xp + l))) with (X - xp) by lia.
    replace (u + (Y - (yp + u))) with (Y - yp) by lia.
    change ((0 <=? X - xp) && (X - xp <? width prev) && (0 <=? Y - yp) &&
            (Y - yp <? height prev)) with (PIL.covered prev xp yp X Y).
    destruct (PIL.covered prev xp yp X Y) eqn:Cp.
    + exact (W2 eq_refl).
    + destruct (PIL.covered src x0 y0 X Y) eqn:Cs; [|reflexivity].
      discriminate (W1 eq_refl).
Qed.

Lemma blend_transparent (o : Z) : byte o -> PIL.blend 0 o 0 = o.
Proof.
  intros Ho. unfold PIL.blend. rewrite Z.sub_0_r, Z.mul_0_r, Z.add_0_r.
  apply Z.eqb_eq. apply (forallb_range _ 256 o div255_table). unfold byte in Ho. lia.
Qed.

Lemma overlay_window_paste (base src ovk : image) (x0 y0 xk yk : Z) :
  wf_image base ->
  overlay_window src ovk x0 y0 xk yk (width base) (height base) ->
  same_image (PIL.paste_mask (PIL.convert_rgba base) ovk ovk xk yk)
             (PIL.paste_mask (PIL.convert_rgba base) src src x0 y0).
Proof.
  intros Hwf Hw. unfold same_image. simpl. split; [reflexivity|].
  split; [reflexivity|]. split; [reflexivity|].
  intros X Y [HX HY]. simpl in HX, HY. destruct (Hw X Y HX HY) as [W1 W2].
  destruct (PIL.covered src x0 y0 X Y) eqn:Cs.
  - rewrite (W1 eq_refl). rewrite (W2 (W1 eq_refl)). reflexivity.
  - destruct (PIL.covered ovk xk yk X Y) eqn:Ck; [|reflexivity].
    rewrite (W2 eq_refl).
    destruct (rgba_view_bytes base X Y Hwf (conj HX HY)) as [B1 [B2 [B3 B4]]].
    destruct (rgba_view (mode base) (pix base X Y)) as [r g b a]. simpl in *.
    rewrite !blend_transparent by assumption. reflexivity.
Qed.

Lemma overlay_clip_window (base src : image) (x y : Z) (out : image) :
  0 <= width src -> 0 <= height src ->
  overlay_clip base src x y = Ok out ->
  exists ovk, overlay_window src ovk x y (if x <? 0 then 0 else x) (if y <? 0 then 0 else y)
                (width base) (height base) /\
    out = PIL.paste_mask (PIL.convert_rgba base) ovk ovk
            (if x <? 0 then 0 else x) (if y <? 0 then 0 else y).
Proof.
  intros Hw0 Hh0 E. unfold overlay_clip in E. cbv beta zeta in E.
  set (x' := if x <? 0 then 0 else x) in *. set (y' := if y <? 0 then 0 else y) in *.
  revert E.
  case_eq (if x <? 0 then PIL.crop src (- x) 0 (width src) (height src) else Ok src);
    [intros ov1 E1 E | intros e _ E; discriminate]. cbn [bind] in E.
  destruct (overlay_window_step src src ov1 (x <? 0) x y x y (- x) 0 (width src) (height src)
              (width base) (height base) (overlay_window_refl _ _ _ _ _) E1) as [I1 [W1 H1]].
  { intros Hb X Y HX HY Hc. apply covered_iff in Hc. apply Z.ltb_lt in Hb. lia. }
  replace (if x <? 0 then x + - x else x) with x' in I1 by (unfold x'; destruct (x <? 0); lia).
  replace (if x <? 0 then y + 0 else y) with y in I1 by (destruct (x <? 0); lia).
  revert E.
  case_eq (if y <? 0 then PIL.crop ov1 0 (- y) (width src) (height src) else Ok ov1);
    [intros ov2 E2 E | intros e _ E; discriminate]. cbn [bind] in E.
  destruct (overlay_window_step src ov1 ov2 (y <? 0) x y x' y 0 (- y) (width src) (height src)
              (width base) (height base) I1 E2) as [I2 [W2 H2]].
  { intros Hb X Y HX HY Hc. apply covered_iff in Hc. apply Z.ltb_lt in Hb.
    rewrite W1, H1 in Hc. unfold x' in *. destruct (Z.ltb_spec x 0); lia. }
  replace (if y <? 0 then x' + 0 else x') with x' in I2 by (destruct (y <? 0); lia).
  replace (if y <? 0 then y + - y else y) with y' in I2 by (unfold y'; destruct (y <? 0); lia).
  revert E.
  case_eq (if width base <? x' + width src
           then PIL.crop ov2 0 0 (width base - x') (height src) else Ok ov2);
    [intros ov3 E3 E | intros e _ E; discriminate]. cbn [bind] in E.
  destruct (overlay_window_step src ov2 ov3 _ x y x' y' 0 0 (width base - x') (height src)
              (width base) (height base) I2 E3) as [I3 [W3 H3]].
  { intros Hb X Y HX HY Hc. apply covered_iff in Hc. apply Z.ltb_lt in Hb.
    rewrite W2, H2, W1, H1 in Hc. unfold x', y' in *.
    destruct (Z.ltb_spec x 0), (Z.ltb_spec y 0); lia. }
  replace (if width base <? x' + width src then x' + 0 else x') with x' in I3
    by (destruct (width base <? x' + width src); lia).
  replace (if width base <? x' + width src then y' + 0 else y') with y' in I3
    by (destruct (width base <? x' + width src); lia).
  revert E.
  case_eq (if height base <? y' + height src
           then PIL.crop ov3 0 0 (width src) (height base - y') else Ok ov3);
    [intros ov4 E4 E | intros e _ E; discriminate]. cbn [bind] in E.
  destruct (overlay_window_step src ov3 ov4 _ x y x' y' 0 0 (width src) (height base - y')
              (width base) (height base) I3 E4) as [I4 _].
  { intros Hb X Y HX HY Hc. apply covered_iff in Hc. apply Z.ltb_lt in Hb.
    rewrite W3, H3, W2, H2, W1, H1 in Hc.
    destruct (Z.ltb_spec (width base) (x' + width src)); unfold x', y' in *;
      destruct (Z.ltb_spec x 0), (Z.ltb_spec y 0); lia. }
  replace (if height base <? y' + height src then x' + 0 else x') with x' in I4
    by (destruct (height base <? y' + height src); lia).
  replace (if height base <? y' + height src then y' + 0 else y') with y' in I4
    by (destruct (height base <? y' + height src); lia).
  injection E as <-. exists ov4. split; [exact I4|reflexivity].
Qed.

Lemma overlay_clip_result (base src : image) (x y : Z) :
  0 <= width base -> 0 <= height base -> 0 <= width src -> 0 <= height src ->
  (- width src <= x <= width base /\ - height src <= y <= height base ->
     exists out, overlay_clip base src x y = Ok out) /\
  (~ (- width src <= x <= width base /\ - height src <= y <= height base) ->
     overlay_clip base src x y = Err ValueError).
Proof.
  intros Hbw Hbh Hw Hh. unfold overlay_clip, PIL.crop. cbv beta zeta.
  repeat match goal with
         | |- context [if ?a <? ?b then _ else _] => destruct (Z.ltb_spec a b)
         end; cbn [bind];
    split; intros Hc; first [eexists; reflexivity | reflexivity | exfalso; lia].
Qed.

(** overlay_images, errors: for rasters of nonnegative size,
    [overlay_images] returns exactly when the scaled position
    [(x, y) = (4 * offset_x, 4 * offset_y)] keeps the overlay touching the
    base or its edges ([-overlay_width <= x <= base_width] and likewise for
    [y]); otherwise one of its crops has a negative extent and it raises
    [ValueError], whatever the nonnegative transparency. *)
Theorem overlay_images_ok_iff (base ov : image) (offset_x offset_y transparency : Z)
  (Hbw : 0 <= width base) (Hbh : 0 <= height base)
  (Hw : 0 <= width ov) (Hh : 0 <= height ov) (Ht : 0 <= transparency) :
  let x := offset_x * SCALE_FACTOR in
  let y := offset_y * SCALE_FACTOR in
  (- width ov <= x <= width base /\ - height ov <= y <= height base ->
     exists out, overlay_images base ov offset_x offset_y transparency = Ok out) /\
  (~ (- width ov <= x <= width base /\ - height ov <= y <= height base) ->
     overlay_images base ov offset_x offset_y transparency = Err ValueError).
Proof.
  intros x y. rewrite overlay_images_clip.
  destruct (overlay_source_ok ov transparency Ht) as [src Es]. rewrite Es. cbn [bind].
  destruct (overlay_source_size ov src transparency Es) as [Ew Eh].
  rewrite <- Ew, <- Eh. apply overlay_clip_result; [exact Hbw|exact Hbh|lia|lia].
Qed.

Lemma overlay_images_ok_iff_witness :
  (exists out, overlay_images (opaque4 10 20 30) (opaque4 1 2 3) (-1) 1 100 = Ok out) /\
  overlay_images (opaque4 10 20 30) (opaque4 1 2 3) 0 (-2) 100 = Err ValueError.
Proof.
  split.
  - destruct (overlay_images_ok_iff (opaque4 10 20 30) (opaque4 1 2 3) (-1) 1 100)
      as [H _]; try (simpl; lia).
    apply H. simpl. lia.
  - destruct (overlay_images_ok_iff (opaque4 10 20 30) (opaque4 1 2 3) 0 (-2) 100)
      as [_ H]; try (simpl; lia).
    apply H. simpl. lia.
Defined.

(** overlay_images, placement: when [overlay_images] returns, its raster
    is the base in RGBA with the whole prepared overlay (RGBA, alpha scaled
    when [transparency < 255]) pasted at [(4 * offset_x, 4 * offset_y)] with
    its own alpha as mask.  The crops of lines 162-171 remove exactly what
    [paste] clips anyway; the zero pixels they pad with leave the base
    pixels as they are. *)
Theorem overlay_images_paste_whole (base ov : image) (offset_x offset_y transparency : Z)
  (out : image) (Hwf : wf_image base) (Hw : 0 <= width ov) (Hh : 0 <= height ov)
  (E : overlay_images base ov offset_x offset_y transparency = Ok out) :
  exists src, overlay_source ov transparency = Ok src /\
  same_image out
    (PIL.paste_mask (PIL.convert_rgba base) src src
       (offset_x * SCALE_FACTOR) (offset_y * SCALE_FACTOR)).
Proof.
  rewrite overlay_images_clip in E.
  destruct (overlay_source ov transparency) as [src|e] eqn:Es; cbn [bind] in E;
    [|discriminate].
  exists src. split; [reflexivity|].
  destruct (overlay_source_size ov src transparency Es) as [Ew Eh].
  destruct (overlay_clip_window base src _ _ out ltac:(lia) ltac:(lia) E) as [ovk [I ->]].
  apply overlay_window_paste; assumption.
Qed.

Definition base8 : image := mkImg RGBA 8 8 (fun x y => mkPx x y 0 255).

Lemma overlay_images_paste_whole_witness :
  exists out, overlay_images base8 (opaque4 1 2 3) (-1) 1 100 = Ok out /\
    exists src, overlay_source (opaque4 1 2 3) 100 = Ok src /\
    same_image out (PIL.paste_mask (PIL.convert_rgba base8) src src (-4) 4).
Proof.
  assert (E : exists out, overlay_images base8 (opaque4 1 2 3) (-1) 1 100 = Ok out)
    by (eexists; vm_compute; reflexivity).
  destruct E as [out E]. exists out. split; [exact E|].
  apply (overlay_images_paste_whole base8 (opaque4 1 2 3) (-1) 1 100 out).
  - unfold wf_image, in_bounds, byte. simpl. repeat split; lia.
  - simpl. lia.
  - simpl. lia.
  - exact E.
Defined.

Lemma scale_alpha_zero_table :
  forallb (fun a => ok_eqb (scale_alpha_value 0 a) 0) (range 256) = true.
Proof. vm_compute. reflexivity. Qed.

Lemma blend_zero_alpha (o i : Z) : byte o -> PIL.blend 0 o i = o.
Proof.
  intros Ho. unfold PIL.blend. rewrite Z.mul_0_r, Z.add_0_r.
  apply blend_transparent in Ho. unfold PIL.blend in Ho.
  rewrite Z.mul_0_r, Z.add_0_r in Ho. exact Ho.
Qed.

(** overlay_images with [transparency = 0]: every overlay alpha is scaled
    to 0, and whenever [overlay_images] returns, its raster is the base
    converted to RGBA, pixel for pixel. *)
Theorem overlay_images_transparent (base ov : image) (offset_x offset_y : Z) (out : image)
  (Hwf : wf_image base) (Hwo : wf_image ov)
  (E : overlay_images base ov offset_x offset_y 0 = Ok out) :
  same_image out (PIL.convert_rgba base).
Proof.
  pose proof Hwo as [Hw [Hh _]].
  rewrite overlay_images_clip in E.
  destruct (overlay_source ov 0) as [src|e] eqn:Es; cbn [bind] in E; [|discriminate].
  destruct (overlay_source_size ov src 0 Es) as [Ew Eh].
  destruct (overlay_clip_window base src _ _ out ltac:(lia) ltac:(lia) E) as [ovk [I ->]].
  eapply same_image_trans; [apply overlay_window_paste; eassumption|].
  unfold same_image. simpl. split; [reflexivity|]. split; [reflexivity|].
  split; [reflexivity|].
  intros X Y [HX HY]. simpl in HX, HY.
  destruct (PIL.covered src _ _ X Y) eqn:C; [|reflexivity].
  apply covered_iff in C. rewrite Ew, Eh in C.
  destruct (rgba_view_bytes ov (X - offset_x * SCALE_FACTOR) (Y - offset_y * SCALE_FACTOR)
              Hwo C) as [_ [_ [_ Ba]]].
  destruct (overlay_source_pix ov src 0 (X - offset_x * SCALE_FACTOR)
              (Y - offset_y * SCALE_FACTOR) Es ltac:(unfold byte in Ba; lia)) as [v [Hv ->]].
  cbn [Z.ltb Z.compare] in Hv.
  set (q := rgba_view (mode ov) (pix ov (X - offset_x * SCALE_FACTOR)
                                       (Y - offset_y * SCALE_FACTOR))) in *.
  assert (Z0 : scale_alpha_value 0 (pa q) = Ok 0).
  { apply ok_eqb_ok. apply (forallb_range _ 256 _ scale_alpha_zero_table).
    unfold byte in Ba. lia. }
  rewrite Z0 in Hv. injection Hv as <-.
  destruct (rgba_view_bytes base X Y Hwf (conj HX HY)) as [B1 [B2 [B3 B4]]].
  destruct (rgba_view (mode base) (pix base X Y)) as [r g b a]. simpl in *.
  rewrite !blend_zero_alpha by assumption. reflexivity.
Qed.

Lemma overlay_images_transparent_witness :
  exists out, overlay_images (opaque4 10 20 30) (opaque4 1 2 3) 0 0 0 = Ok out /\
    same_image out (PIL.convert_rgba (opaque4 10 20 30)).
Proof.
  assert (E : exists out, overlay_images (opaque4 10 20 30) (opaque4 1 2 3) 0 0 0 = Ok out)
    by (eexists; vm_compute; reflexivity).
  destruct E as [out E]. exists out. split; [exact E|].
  apply (overlay_images_transparent (opaque4 10 20 30) (opaque4 1 2 3) 0 0 out).
  - unfold wf_image, in_bounds, byte. simpl. repeat split; lia.
  - unfold wf_image, in_bounds, byte. simpl. repeat split; lia.
  - exact E.
Defined.

Lemma scale_alpha_table :
  forallb (fun t => forallb (fun a =>
      match scale_alpha_value t a with
      | Ok v => (a * t / 255 - 1 <=? v) && (v <=? a * t / 255)
      | Err _ => false
      end) (range 256)) (range 255) = true.
Proof. vm_compute. reflexivity. Qed.

(** overlay_images, alpha scaling: for [0 <= transparency < 255], the
    lambda [int(a * (transparency / 255))] gives the floor of
    [a * transparency / 255] or one less: the float quotient can fall just
    below an integer, e.g. alpha 85 at transparency 147 gives 48 where
    [85 * 147 / 255 = 49]. *)
Theorem scale_alpha_value_floor (t a : Z) (Ht : 0 <= t < 255) (Ha : byte a) :
  (exists v, scale_alpha_value t a = Ok v /\ a * t / 255 - 1 <= v <= a * t / 255) /\
  scale_alpha_value 147 85 = Ok 48 /\ 85 * 147 / 255 = 49.
Proof.
  pose proof (forallb_range _ 255 t scale_alpha_table Ht) as T. cbv beta in T.
  unfold byte in Ha. pose proof (forallb_range _ 256 a T ltac:(lia)) as T2.
  split; [|split; [vm_compute; reflexivity|reflexivity]].
  cbv beta in T2. destruct (scale_alpha_value t a) as [v|e]; [|discriminate].
  apply andb_prop in T2 as [T1 T2]. apply Z.leb_le in T1, T2.
  exists v. split; [reflexivity|lia].
Qed.

Lemma scale_alpha_value_floor_witness :
  exists v, scale_alpha_value 100 255 = Ok v /\ 0 <= v <= 100.
Proof.
  destruct (scale_alpha_value_floor 100 255) as [[v [E H]] _]; [lia|unfold byte; lia|].
  exists v. split; [exact E|].
  change (255 * 100 / 255) with 100 in H. lia.
Defined.

(** ** Rectangle and canvas *)

(** rectangle: negative sizes raise [ValueError] in [Image.new], before
    the colour is read; for nonnegative sizes, a transparency in [0, 100]
    and a colour [hex_to_rgb] reads, the raster is RGBA of size
    [(4 * width, 4 * height)] and every pixel is the fill
    [(r, g, b, opacity)] through [CLIP8]: the inclusive box
    [(0, 0, width, height)] covers the whole raster. *)
Theorem rectangle_fills (w h : Z) (color : string) (t : Z) :
  ((w < 0 \/ h < 0) -> rectangle w h color t = Err ValueError) /\
  (forall r g b, 0 <= w -> 0 <= h -> 0 <= t <= 100 -> hex_to_rgb color = Ok (r, g, b) ->
   exists out, rectangle w h color t = Ok out /\ mode out = RGBA /\
     width out = w * SCALE_FACTOR /\ height out = h * SCALE_FACTOR /\
     forall x y, in_bounds out x y ->
       pix out x y = PIL.clip_px (mkPx r g b (255 * (100 - t) / 100))).
Proof.
  split.
  - intros Hneg. unfold rectangle, PIL.new, SCALE_FACTOR.
    replace ((w * 4 <? 0) || (h * 4 <? 0)) with true
      by (symmetry; apply orb_true_iff; destruct Hneg; [left|right]; apply Z.ltb_lt; lia).
    reflexivity.
  - intros r g b Hw Hh Ht Hc. unfold rectangle, PIL.new, SCALE_FACTOR.
    replace ((w * 4 <? 0) || (h * 4 <? 0)) with false
      by (symmetry; apply orb_false_iff; split; apply Z.ltb_ge; lia).
    cbn [bind]. unfold rectangle_fill. rewrite (opacity_value t Ht). cbn [bind].
    rewrite Hc. cbn [bind].
    unfold draw_rectangle.
    change (PIL.getink ?p) with (if ink_ok p then Ok (PIL.clip_px p) else Err OverflowError).
    destruct (hex_to_rgb_small _ _ _ _ Hc) as [R [G B]].
    pose proof (opacity_range t Ht) as Hr.
    revert Hr. generalize (255 * (100 - t) / 100). intros op Hr.
    rewrite ink_ok_small by (cbn [pr pg pb pa]; lia). cbn [bind].
    replace (w * 4 <? 0) with false by (symmetry; apply Z.ltb_ge; lia).
    replace (h * 4 <? 0) with false by (symmetry; apply Z.ltb_ge; lia).
    eexists. split; [reflexivity|]. simpl.
    split; [reflexivity|]. split; [reflexivity|]. split; [reflexivity|].
    intros x y [Hx Hy]. simpl in Hx, Hy.
    replace ((0 <=? x) && (x <=? w * 4) && (0 <=? y) && (y <=? h * 4)) with true
      by (symmetry; rewrite !andb_true_iff, !Z.leb_le; lia).
    reflexivity.
Qed.

Lemma rectangle_fills_witness :
  rectangle (-1) 2 "nope" 0 = Err ValueError /\
  exists out, rectangle 2 1 "#FF8000" 50 = Ok out /\ width out = 8 /\ height out = 4 /\
              pix out 7 3 = mkPx 255 128 0 127.
Proof.
  destruct (rectangle_fills (-1) 2 "nope" 0) as [H1 _].
  split; [apply H1; lia|].
  destruct (rectangle_fills 2 1 "#FF8000" 50) as [_ H2].
  destruct (H2 255 128 0 ltac:(lia) ltac:(lia) ltac:(lia) eq_refl) as [out [E [_ [W [Hh P]]]]].
  exists out. split; [exact E|]. split; [exact W|]. split; [exact Hh|].
  rewrite P by (unfold in_bounds; rewrite W, Hh; unfold SCALE_FACTOR; lia).
  vm_compute. reflexivity.
Defined.

(** create_canvas: negative sizes raise [ValueError] whatever the colour;
    otherwise the canvas is RGBA of size [(4 * width, 4 * height)] filled
    with the resolved colour, and an unresolvable colour raises the
    resolver's error. *)
Theorem create_canvas_fills (getcolor : string -> result pixel) (w h : Z) (c : string) :
  ((w < 0 \/ h < 0) -> create_canvas getcolor w h c = Err ValueError) /\
  (0 <= w -> 0 <= h ->
   (forall p, getcolor c = Ok p ->
      exists out, create_canvas getcolor w h c = Ok out /\ mode out = RGBA /\
        width out = w * SCALE_FACTOR /\ height out = h * SCALE_FACTOR /\
        forall x y, pix out x y = p) /\
   (forall e, getcolor c = Err e -> create_canvas getcolor w h c = Err e)).
Proof.
  unfold create_canvas, new_str, SCALE_FACTOR. split.
  - intros Hneg.
    replace ((w * 4 <? 0) || (h * 4 <? 0)) with true
      by (symmetry; apply orb_true_iff; destruct Hneg; [left|right]; apply Z.ltb_lt; lia).
    reflexivity.
  - intros Hw Hh.
    replace ((w * 4 <? 0) || (h * 4 <? 0)) with false
      by (symmetry; apply orb_false_iff; split; apply Z.ltb_ge; lia).
    split.
    + intros p Hp. rewrite Hp. eexists. split; [reflexivity|]. simpl.
      repeat split; reflexivity.
    + intros e He. rewrite He. reflexivity.
Qed.

Lemma create_canvas_fills_witness :
  let getcolor := fun s : string =>
    if String.eqb s "white" then Ok (mkPx 255 255 255 255) else Err ValueError in
  create_canvas getcolor (-3) 1 "white" = Err ValueError /\
  create_canvas getcolor 3 1 "nope" = Err ValueError /\
  exists out, create_canvas getcolor 3 1 "white" = Ok out /\ width out = 12 /\ height out = 4.
Proof.
  intros getcolor.
  destruct (create_canvas_fills getcolor (-3) 1 "white") as [H1 _].
  destruct (create_canvas_fills getcolor 3 1 "nope") as [_ H2].
  destruct (create_canvas_fills getcolor 3 1 "white") as [_ H3].
  split; [apply H1; lia|].
  split; [apply (proj2 (H2 ltac:(lia) ltac:(lia))); reflexivity|].
  destruct (proj1 (H3 ltac:(lia) ltac:(lia)) (mkPx 255 255 255 255) eq_refl)
    as [out [E [_ [W [Hh _]]]]].
  exists out. split; [exact E|]. split; [exact W|exact Hh].
Defined.

(** ** Rotation *)

Fixpoint rot90n (n : nat) (img : image) : image :=
  match n with O => img | S n' => rotate_90 (rot90n n' img) end.

Lemma rotate_90_same (a b : image) :
  same_image a b -> same_image (rotate_90 a) (rotate_90 b).
Proof.
  intros [M [W [H P]]]. unfold same_image, rotate_90; simpl.
  split; [exact M|]. split; [exact H|]. split; [exact W|].
  intros x y [Hx Hy]. simpl in Hx, Hy. rewrite W. apply P.
  unfold in_bounds. lia.
Qed.

Lemma rot90n_same (n : nat) (a b : image) :
  same_image a b -> same_image (rot90n n a) (rot90n n b).
Proof. induction n; simpl; [auto|]. intros S. apply rotate_90_same, IHn, S. Qed.

Lemma same_image_refl (a : image) : same_image a a.
Proof. repeat split; reflexivity. Qed.

Lemma same_image_sym (a b : image) : same_image a b -> same_image b a.
Proof.
  intros [M [W [H P]]]. split; [congruence|]. split; [congruence|]. split; [congruence|].
  intros x y Hb. symmetry. apply P. unfold in_bounds in *. lia.
Qed.

Lemma rot90n_add (m n : nat) (img : image) :
  rot90n m (rot90n n img) = rot90n (m + n) img.
Proof. induction m; simpl; [reflexivity|]. rewrite IHm. reflexivity. Qed.

Lemma rot90n_2 (img : image) : same_image (rot90n 2 img) (rotate_180 img).
Proof.
  unfold same_image; simpl. repeat split; try reflexivity.
  all: intros x y _; f_equal; lia.
Qed.

Lemma rot90n_3 (img : image) : same_image (rot90n 3 img) (rotate_270 img).
Proof.
  unfold same_image; simpl. repeat split; try reflexivity.
  all: intros x y _; f_equal; lia.
Qed.

Lemma rot90n_4 (img : image) : same_image (rot90n 4 img) img.
Proof.
  unfold same_image; simpl. repeat split; try reflexivity.
  all: intros x y _; f_equal; lia.
Qed.

Lemma rot90n_mod (n : nat) (img : image) :
  same_image (rot90n n img) (rot90n (n mod 4) img).
Proof.
  induction n as [n IH] using (well_founded_induction lt_wf).
  destruct (Nat.lt_ge_cases n 4) as [Hn|Hn].
  - rewrite Nat.mod_small by exact Hn. apply same_image_refl.
  - replace n with (4 + (n - 4))%nat at 1 by lia.
    rewrite <- rot90n_add.
    eapply same_image_trans; [apply rot90n_4|].
    replace (n mod 4)%nat with ((n - 4) mod 4)%nat.
    + apply IH. lia.
    + replace n with ((n - 4) + 1 * 4)%nat at 2 by lia.
      rewrite Nat.Div0.mod_add. reflexivity.
Qed.

Lemma rotate_quarter (img : image) (a : Z) :
  a mod 90 = 0 -> Z.abs a <= 2 ^ 53 ->
  exists r, rotate img a = Some r /\
    same_image r (rot90n (Z.to_nat (a mod 360 / 90)) img).
Proof.
  intros Ha Habs. unfold rotate.
  replace (Z.abs a <=? 2 ^ 53) with true by (symmetry; apply Z.leb_le; exact Habs).
  assert (Hm : a mod 360 = 0 \/ a mod 360 = 90 \/ a mod 360 = 180 \/ a mod 360 = 270).
  { assert (E : a mod 360 mod 90 = 0).
    { replace 360 with (90 * 4) by reflexivity.
      rewrite Z.rem_mul_r by lia. rewrite Ha. rewrite Z.add_0_l.
      rewrite Z.mul_comm, Z.mod_mul; lia. }
    pose proof (Z.mod_pos_bound a 360 ltac:(lia)).
    pose proof (Z.div_mod (a mod 360) 90 ltac:(lia)). rewrite E in H0. lia. }
  destruct Hm as [-> | [-> | [-> | ->]]]; simpl.
  - eexists. split; [reflexivity|]. apply same_image_refl.
  - eexists. split; [reflexivity|]. apply same_image_refl.
  - eexists. split; [reflexivity|]. apply same_image_sym, rot90n_2.
  - eexists. split; [reflexivity|]. apply same_image_sym, rot90n_3.
Qed.

(** rotate, full turns: a rotation by any multiple [360 * k] of 360
    degrees with [|360 * k| <= 2^53] (so that the angle converts to a float
    exactly) returns the raster unchanged (Pillow's [copy()] path). *)
Theorem rotate_full_turn (img : image) (k : Z) (Hk : Z.abs (360 * k) <= 2 ^ 53) :
  rotate img (360 * k) = Some img.
Proof.
  unfold rotate.
  replace (Z.abs (360 * k) <=? 2 ^ 53) with true by (symmetry; apply Z.leb_le; exact Hk).
  rewrite Z.mul_comm, Z.mod_mul by lia. reflexivity.
Qed.

Lemma rotate_full_turn_witness :
  rotate (opaque4 1 2 3) (360 * (-2)) = Some (opaque4 1 2 3).
Proof. apply rotate_full_turn. vm_compute. discriminate. Defined.

(** rotate, quarter turns: for angles [a] and [b] that are multiples of
    90 degrees, with [|a|], [|b|] and [|a + b|] at most [2^53] (so that the
    angles convert to floats exactly), rotating by [a] and then by [b]
    gives the same raster as rotating once by [a + b]. *)
Theorem rotate_quarter_compose (img : image) (a b : Z)
  (Ha : a mod 90 = 0) (Hb : b mod 90 = 0)
  (Ha' : Z.abs a <= 2 ^ 53) (Hb' : Z.abs b <= 2 ^ 53) (Hab : Z.abs (a + b) <= 2 ^ 53) :
  exists r1 r2 r3, rotate img a = Some r1 /\ rotate r1 b = Some r2 /\
    rotate img (a + b) = Some r3 /\ same_image r2 r3.
Proof.
  destruct (rotate_quarter img a Ha Ha') as [r1 [E1 S1]].
  destruct (rotate_quarter r1 b Hb Hb') as [r2 [E2 S2]].
  assert (Hab90 : (a + b) mod 90 = 0).
  { rewrite Z.add_mod, Ha, Hb by lia. reflexivity. }
  destruct (rotate_quarter img (a + b) Hab90 Hab) as [r3 [E3 S3]].
  exists r1, r2, r3. split; [exact E1|]. split; [exact E2|]. split; [exact E3|].
  eapply same_image_trans; [exact S2|].
  eapply same_image_trans; [apply rot90n_same, S1|].
  rewrite rot90n_add.
  eapply same_image_trans; [apply rot90n_mod|].
  eapply same_image_trans; [|apply same_image_sym, S3].
  assert (Hq : forall c, c mod 90 = 0 -> c mod 360 = 90 * (c mod 360 / 90)).
  { intros c Hc. pose proof (Z.div_mod (c mod 360) 90 ltac:(lia)).
    assert (c mod 360 mod 90 = 0).
    { replace 360 with (90 * 4) by reflexivity.
      rewrite Z.rem_mul_r by lia. rewrite Hc, Z.add_0_l, Z.mul_comm, Z.mod_mul; lia. }
    lia. }
  pose proof (Hq a Ha) as Qa. pose proof (Hq b Hb) as Qb. pose proof (Hq _ Hab90) as Qab.
  pose proof (Z.mod_pos_bound a 360 ltac:(lia)).
  pose proof (Z.mod_pos_bound b 360 ltac:(lia)).
  pose proof (Z.mod_pos_bound (a + b) 360 ltac:(lia)).
  assert (Hsum : (a + b) mod 360 = (a mod 360 + b mod 360) mod 360) by (apply Z.add_mod; lia).
  replace ((Z.to_nat (b mod 360 / 90) + Z.to_nat (a mod 360 / 90)) mod 4)%nat
    with (Z.to_nat ((a + b) mod 360 / 90)); [apply same_image_refl|].
  set (qa := a mod 360 / 90) in *. set (qb := b mod 360 / 90) in *.
  set (qab := (a + b) mod 360 / 90) in *.
  assert (0 <= qa < 4) by lia. assert (0 <= qb < 4) by lia. assert (0 <= qab < 4) by lia.
  assert (Eq : qab = (qa + qb) mod 4).
  { rewrite Qa, Qb in Hsum. rewrite Qab in Hsum.
    replace (90 * qa + 90 * qb) with (90 * (qa + qb)) in Hsum by ring.
    replace 360 with (90 * 4) in Hsum by reflexivity.
    rewrite Z.mul_mod_distr_l in Hsum by lia. lia. }
  rewrite Eq. rewrite Z2Nat.inj_mod by lia. rewrite Z2Nat.inj_add by lia.
  rewrite Nat.add_comm. reflexivity.
Qed.

Lemma rotate_quarter_compose_witness :
  exists r1 r2 r3, rotate (opaque4 1 2 3) 90 = Some r1 /\ rotate r1 (-450) = Some r2 /\
    rotate (opaque4 1 2 3) (-360) = Some r3 /\ same_image r2 r3.
Proof.
  apply (rotate_quarter_compose (opaque4 1 2 3) 90 (-450));
    try reflexivity; vm_compute; discriminate.
Defined.

(** ** Recolouring and transparency *)

Lemma clip8_idem (v : Z) : PIL.clip8 (PIL.clip8 v) = PIL.clip8 v.
Proof.
  unfold PIL.clip8.
  destruct (Z.ltb_spec v 0); [reflexivity|].
  destruct (Z.ltb_spec 255 v); [reflexivity|].
  destruct (Z.ltb_spec v 0); [lia|]. destruct (Z.ltb_spec 255 v); [lia|reflexivity].
Qed.

Lemma clip_px_idem (p : pixel) : PIL.clip_px (PIL.clip_px p) = PIL.clip_px p.
Proof. unfold PIL.clip_px; simpl. rewrite !clip8_idem. reflexivity. Qed.

Lemma recolor_clip_idem (r g b : Z) (v : pixel) :
  PIL.clip_px (recolor_px r g b (PIL.clip_px (recolor_px r g b v))) =
  PIL.clip_px (recolor_px r g b v).
Proof.
  destruct v as [vr vg vb va]. unfold recolor_px; simpl.
  destruct (Z.eqb_spec va 0) as [->|Hne].
  - simpl. apply clip_px_idem.
  - cbn [pa]. destruct (PIL.clip8 va =? 0); [apply clip_px_idem|].
    unfold PIL.clip_px; simpl. rewrite !clip8_idem. reflexivity.
Qed.

Lemma change_color_view_bytes (img o : image) (color : string) (r g b : Z) :
  hex_to_rgb color = Ok (r, g, b) -> change_color img color = Ok o -> view_bytes o.
Proof.
  intros Hc E. destruct (change_color_ok img color r g b o Hc E) as [M [W [H P]]].
  exact (clip_view_bytes img o _ M W H P).
Qed.

Lemma change_transparency_view_bytes (img o : image) (t : Z) :
  change_transparency img t = Ok o -> view_bytes o.
Proof.
  intros E. destruct (change_transparency_ok img t o E) as [op [_ [M [W [H P]]]]].
  exact (clip_view_bytes img o _ M W H P).
Qed.

(** A pixel [getink] refuses, kept by the alpha-0 branch of [recolor_item],
    makes [putdata] raise [OverflowError]. *)
Lemma change_color_overflow :
  change_color (mkImg RGBA 1 1 (fun _ _ => mkPx 0 (2 ^ 40) 0 0)) "#102030" = Err OverflowError.
Proof. vm_compute. reflexivity. Qed.

(** change_color is idempotent: recolouring a raster [change_color]
    returned with the same colour returns the same raster again; for a
    well-formed raster both calls return. *)
Theorem change_color_idempotent (img : image) (color : string) (r g b : Z)
  (Hc : hex_to_rgb color = Ok (r, g, b)) :
  (forall o1, change_color img color = Ok o1 ->
     exists o2, change_color o1 color = Ok o2 /\ same_image o2 o1) /\
  (wf_image img ->
     exists o1 o2, change_color img color = Ok o1 /\ change_color o1 color = Ok o2 /\
       same_image o2 o1).
Proof.
  assert (Step : forall o1, change_color img color = Ok o1 ->
            exists o2, change_color o1 color = Ok o2 /\ same_image o2 o1).
  { intros o1 E1. destruct (change_color_ok img color r g b o1 Hc E1) as [M1 [W1 [H1 P1]]].
    destruct (change_color_pix o1 color r g b (change_color_view_bytes img o1 color r g b Hc E1)
                Hc) as [o2 [E2 [M2 [W2 [H2 P2]]]]].
    exists o2. split; [exact E2|].
    split; [congruence|]. split; [exact W2|]. split; [exact H2|].
    intros x y Hb. unfold in_bounds in Hb. rewrite W2, H2 in Hb.
    rewrite P2 by exact Hb. rewrite M1. simpl.
    rewrite P1 by (unfold in_bounds in *; rewrite <- W1, <- H1; exact Hb).
    apply recolor_clip_idem. }
  split; [exact Step|].
  intros Hwf. destruct (change_color_pix img color r g b (wf_view_bytes img Hwf) Hc)
    as [o1 [E1 _]].
  destruct (Step o1 E1) as [o2 [E2 S]]. exists o1, o2. auto.
Qed.

Lemma change_color_idempotent_witness :
  exists o1 o2, change_color (mkImg RGB 2 1 (fun x _ => mkPx x 0 0 x)) "#102030" = Ok o1 /\
    change_color o1 "#102030" = Ok o2 /\ same_image o2 o1.
Proof.
  destruct (change_color_idempotent (mkImg RGB 2 1 (fun x _ => mkPx x 0 0 x))
              "#102030" 16 32 48 eq_refl) as [_ H].
  apply H. unfold wf_image, in_bounds, byte; simpl. intros. repeat split; lia.
Defined.

Lemma opacity_pos (t : Z) : 0 <= t < 100 -> 2 <= 255 * (100 - t) / 100.
Proof. intros Ht. apply Z.div_le_lower_bound; lia. Qed.

(** change_transparency: a pixel comes out fully transparent exactly when
    it was fully transparent or the transparency is 100; at transparency 0
    every visible pixel comes out fully opaque. *)
Theorem change_transparency_invisible (img : image) (t : Z)
  (Hwf : wf_image img) (Ht : 0 <= t <= 100) :
  exists out, change_transparency img t = Ok out /\
    forall x y, in_bounds img x y ->
      let p := rgba_view (mode img) (pix img x y) in
      (pa (pix out x y) = 0 <-> pa p = 0 \/ t = 100) /\
      (t = 0 -> pa p <> 0 -> pa (pix out x y) = 255).
Proof.
  destruct (change_transparency_pix img t (wf_view_bytes img Hwf) Ht)
    as [out [E [_ [_ [_ P]]]]].
  exists out. split; [exact E|].
  intros x y Hb p. rewrite P by exact Hb. fold p.
  destruct (rgba_view_bytes img x y Hwf Hb) as [_ [_ [_ B4]]]. fold p in B4.
  unfold byte in B4.
  assert (Hpos : t < 100 -> 2 <= 255 * (100 - t) / 100) by (intros; apply opacity_pos; lia).
  assert (H100 : t = 100 -> 255 * (100 - t) / 100 = 0) by (intros ->; reflexivity).
  assert (H0 : t = 0 -> 255 * (100 - t) / 100 = 255) by (intros ->; reflexivity).
  pose proof (opacity_range t Ht) as Hop.
  revert Hpos H100 H0 Hop. generalize (255 * (100 - t) / 100). intros op Hpos H100 H0 Hop.
  unfold PIL.clip_px, retransparency_item; simpl.
  rewrite clip8_nonneg by nia.
  split.
  - split.
    + intros HZ. destruct (Z.eq_dec (pa p) 0) as [|Hne]; [left; assumption|right].
      destruct (Z.eq_dec t 100) as [|Ht']; [assumption|].
      specialize (Hpos ltac:(lia)). nia.
    + intros [HZ | ->]; [rewrite HZ; reflexivity|].
      rewrite (H100 eq_refl). lia.
  - intros -> Hne. rewrite (H0 eq_refl). nia.
Qed.

Lemma change_transparency_invisible_witness :
  exists out, change_transparency (mkImg RGBA 2 1 (fun x _ => mkPx 0 0 0 x)) 0 = Ok out /\
    pa (pix out 0 0) = 0 /\ pa (pix out 1 0) = 255.
Proof.
  assert (Hwf : wf_image (mkImg RGBA 2 1 (fun x _ => mkPx 0 0 0 x))).
  { unfold wf_image, in_bounds, byte; simpl. repeat split; lia. }
  destruct (change_transparency_invisible _ 0 Hwf ltac:(lia)) as [out [E P]].
  exists out. split; [exact E|].
  destruct (P 0 0 ltac:(unfold in_bounds; simpl; lia)) as [[_ Z0] _].
  destruct (P 1 0 ltac:(unfold in_bounds; simpl; lia)) as [_ O1].
  simpl in Z0, O1. split; [apply Z0; left; reflexivity|].
  apply O1; [reflexivity|discriminate].
Defined.

Lemma recolor_retransparency_px (r g b op : Z) (v : pixel) :
  byte (pr v) -> byte (pg v) -> byte (pb v) -> byte (pa v) -> 1 <= op ->
  PIL.clip_px (retransparency_item op (PIL.clip_px (recolor_px r g b v))) =
  PIL.clip_px (recolor_px r g b (PIL.clip_px (retransparency_item op v))).
Proof.
  destruct v as [vr vg vb va]; simpl. intros B1 B2 B3 B4 Hop.
  unfold recolor_px, retransparency_item, PIL.clip_px; simpl.
  destruct (Z.eqb_spec va 0) as [->|Hne].
  - simpl. rewrite !clip8_idem. reflexivity.
  - cbn [pr pg pb pa]. rewrite (clip8_byte va) by assumption.
    rewrite !clip8_idem.
    replace (PIL.clip8 (va * op) =? 0) with false.
    + simpl. rewrite !clip8_idem. reflexivity.
    + symmetry. apply Z.eqb_neq. rewrite clip8_nonneg by (unfold byte in B4; nia).
      unfold byte in B4. nia.
Qed.

(** change_color and change_transparency commute: for a readable colour
    and a transparency below 100, recolouring then changing the
    transparency gives the same raster as the other order. *)
Theorem change_color_transparency_commute (img : image) (color : string) (r g b t : Z)
  (Hwf : wf_image img) (Hc : hex_to_rgb color = Ok (r, g, b)) (Ht : 0 <= t < 100) :
  exists o1 o2 o3 o4,
    change_color img color = Ok o1 /\ change_transparency o1 t = Ok o2 /\
    change_transparency img t = Ok o3 /\ change_color o3 color = Ok o4 /\
    same_image o2 o4.
Proof.
  destruct (change_color_pix img color r g b (wf_view_bytes img Hwf) Hc)
    as [o1 [E1 [M1 [W1 [H1 P1]]]]].
  destruct (change_transparency_pix o1 t (change_color_view_bytes img o1 color r g b Hc E1)
              ltac:(lia)) as [o2 [E2 [M2 [W2 [H2 P2]]]]].
  destruct (change_transparency_pix img t (wf_view_bytes img Hwf) ltac:(lia))
    as [o3 [E3 [M3 [W3 [H3 P3]]]]].
  destruct (change_color_pix o3 color r g b (change_transparency_view_bytes img o3 t E3) Hc)
    as [o4 [E4 [M4 [W4 [H4 P4]]]]].
  exists o1, o2, o3, o4. repeat (split; [assumption|]).
  split; [congruence|]. split; [congruence|]. split; [congruence|].
  intros x y Hb. unfold in_bounds in Hb. rewrite W2, H2, W1, H1 in Hb.
  rewrite P2 by (unfold in_bounds; rewrite W1, H1; exact Hb).
  rewrite P4 by (unfold in_bounds; rewrite W3, H3; exact Hb).
  rewrite M1, M3. simpl.
  rewrite P1, P3 by exact Hb.
  destruct (rgba_view_bytes img x y Hwf Hb) as [B1 [B2 [B3 B4]]].
  apply recolor_retransparency_px; try assumption.
  pose proof (opacity_pos t Ht). lia.
Qed.

Lemma change_color_transparency_commute_witness :
  exists o1 o2 o3 o4,
    change_color (mkImg RGB 2 1 (fun x _ => mkPx x 0 0 0)) "#102030" = Ok o1 /\
    change_transparency o1 40 = Ok o2 /\
    change_transparency (mkImg RGB 2 1 (fun x _ => mkPx x 0 0 0)) 40 = Ok o3 /\
    change_color o3 "#102030" = Ok o4 /\ same_image o2 o4.
Proof.
  apply (change_color_transparency_commute _ _ 16 32 48).
  - unfold wf_image, in_bounds, byte; simpl. intros. repeat split; lia.
  - reflexivity.
  - lia.
Defined.

(** ** Pattern *)






(** rectangular_pattern places every copy inside the raster: for an RGBA
    tile and nonnegative counts and steps, the copy [(i, j)] at
    [(i * step_x, j * step_y)] (scaled steps) lies wholly within the
    returned raster. *)
Theorem rectangular_pattern_copies_inside (tile : image) (count_x count_y step_x step_y : Z)
  (Hmode : mode tile = RGBA) (Hw : 0 <= width tile) (Hh : 0 <= height tile)
  (Hcx : 0 <= count_x) (Hcy : 0 <= count_y) (Hsx : 0 <= step_x) (Hsy : 0 <= step_y) :
  exists out, rectangular_pattern tile count_x count_y step_x step_y = Ok out /\
    forall i j, 0 <= i < count_x -> 0 <= j < count_y ->
      0 <= i * (step_x * SCALE_FACTOR) /\
      i * (step_x * SCALE_FACTOR) + width tile <= width out /\
      0 <= j * (step_y * SCALE_FACTOR) /\
      j * (step_y * SCALE_FACTOR) + height tile <= height out.
Proof.
  unfold SCALE_FACTOR.
  assert (Ext : forall n s d, 0 <= n -> 0 <= s -> 0 <= d -> 0 <= pattern_extent n s d).
  { intros n s d Hn Hs Hd. unfold pattern_extent. destruct (Z.ltb_spec s d); nia. }
  assert (Fit : forall n s d k, 0 <= s -> 0 <= d -> 0 <= k < n ->
            0 <= k * s /\ k * s + d <= pattern_extent n s d).
  { intros n s d k Hs Hd Hk. unfold pattern_extent. destruct (Z.ltb_spec s d); nia. }
  rewrite rectangular_pattern_unfold by (apply Ext; unfold SCALE_FACTOR; lia).
  set (c := clear_canvas (pattern_extent count_x (step_x * 4) (width tile))
                         (pattern_extent count_y (step_y * 4) (height tile))).
  destruct (tile_grid tile Hmode Hw Hh (step_x * 4) (step_y * 4)
              count_y (range count_x) c c eq_refl ltac:(repeat split; reflexivity))
    as [out [E S]].
  exists out. split; [exact E|].
  destruct S as [_ [W [H _]]]. rewrite W, H.
  destruct (draw_tiles_size c tile
      (flat_map (fun x => map (fun y => (x * (step_x * 4), y * (step_y * 4))) (range count_y))
         (range count_x))) as [DW DH].
  rewrite DW, DH. simpl.
  intros i j Hi Hj.
  destruct (Fit count_x (step_x * 4) (width tile) i ltac:(lia) Hw Hi).
  destruct (Fit count_y (step_y * 4) (height tile) j ltac:(lia) Hh Hj).
  repeat split; assumption.
Qed.

Lemma rectangular_pattern_copies_inside_witness :
  exists out, rectangular_pattern (opaque4 1 2 3) 3 2 0 5 = Ok out /\
    2 * 0 + 4 <= width out /\ 1 * 20 + 4 <= height out.
Proof.
  destruct (rectangular_pattern_copies_inside (opaque4 1 2 3) 3 2 0 5 eq_refl)
    as [out [E P]]; try (simpl; lia).
  exists out. split; [exact E|].
  destruct (P 2 1 ltac:(lia) ltac:(lia)) as [_ [A [_ B]]].
  unfold SCALE_FACTOR in *. simpl in A, B. split; lia.
Defined.

(** ** Hex colors *)

Lemma substring_past (n m : nat) (s : string) :
  (String.length s <= n)%nat -> substring n m s = EmptyString.
Proof.
  revert n. induction s as [|c s IH]; intros n Hn.
  - destruct n, m; reflexivity.
  - destruct n; simpl in Hn; [lia|]. simpl. apply IH. lia.
Qed.

Lemma int16_err (s : string) (e : exn) : int16 s = Err e -> e = ValueError.
Proof. unfold int16. destruct (py_int16 s); congruence. Qed.

(** hex_to_rgb rejects short colours: when at most four characters remain
    after the leading [#] are stripped (e.g. the CSS shorthand [#fff]), the
    third slice is empty and [int("", 16)] raises [ValueError]. *)
Theorem hex_to_rgb_short (s : string)
  (H : (String.length (lstrip_by (fun c => (c =? "#")%char) s) <= 4)%nat) :
  hex_to_rgb s = Err ValueError.
Proof.
  unfold hex_to_rgb. set (h := lstrip_by _ s) in *.
  rewrite (substring_past 4 2 h H).
  destruct (int16 (substring 0 2 h)) eqn:E1; cbn [bind].
  - destruct (int16 (substring 2 2 h)) eqn:E2; cbn [bind]; [reflexivity|].
    apply int16_err in E2. subst. reflexivity.
  - apply int16_err in E1. subst. reflexivity.
Qed.

Lemma hex_to_rgb_short_witness : hex_to_rgb "#fff" = Err ValueError.
Proof. apply hex_to_rgb_short. simpl. lia. Defined.

(** ** The save and restore buttons *)

(** save_image then restore_image: after a click on Save with nodes in the
    editor, a click on Restore puts those nodes back into the editor,
    whatever the editor holds by then; without nodes, Save leaves the
    store as it was. *)
Theorem save_then_restore {A} (n_clicks : Z) (nodes old current : option (list A)) :
  (truthy nodes = true ->
   restore_image (Some "restore-button"%string)
     (apply_update (save_image (Some n_clicks) nodes) old) current =
   (Update nodes, Update "server"%string)) /\
  (truthy nodes = false ->
   apply_update (save_image (Some n_clicks) nodes) old = old).
Proof.
  unfold save_image, restore_image. simpl. split; intros Ht; rewrite Ht; simpl.
  - rewrite Ht. reflexivity.
  - reflexivity.
Qed.

Lemma save_then_restore_witness :
  restore_image (Some "restore-button"%string)
    (apply_update (save_image (Some 1) (Some [7; 8])) None) (Some []) =
  (Update (Some [7; 8]), Update "server"%string) /\
  apply_update (save_image (Some 1) (Some [])) (Some [7]) = Some [7].
Proof.
  split.
  - apply (proj1 (save_then_restore 1 (Some [7; 8]) None (Some []))). reflexivity.
  - apply (proj2 (save_then_restore 1 (Some []) (Some [7]) (Some []))). reflexivity.
Defined.

(** ** Object identity: RGB inputs *)



(** restore_image updates both outputs or neither, and it leaves them
    unchanged only when Restore was clicked with an empty store. *)
Theorem restore_image_no_update {A} (triggered : option string) (store_data nodes : option (list A)) :
  (fst (restore_image triggered store_data nodes) = NoUpdate <->
   snd (restore_image triggered store_data nodes) = NoUpdate) /\
  (fst (restore_image triggered store_data nodes) = NoUpdate <->
   triggered = Some "restore-button"%string /\ truthy store_data = false).
Proof.
  unfold restore_image. destruct triggered as [control|].
  - destruct (String.eqb_spec control "restore-button") as [->|Hr].
    + destruct (truthy store_data); simpl; intuition congruence.
    + destruct (String.eqb control "clear-button"); simpl;
        split; split; intros H; try discriminate H; destruct H as [H _];
        injection H as H; contradiction.
  - simpl. intuition congruence.
Qed.
